(** * Heatmap dashboard: the statistics engine of [HeatmapService]

    A shallow embedding of [backend/services/heatmap_service.py] and the
    properties of its operations.

    Numbers.  pandas and Python compute on IEEE doubles (binary64).  A
    double is modelled here as a rational, one of the two infinities, or
    NaN (pandas' marker for a missing value).  Every operation returns the
    double nearest to its exact result, a tie going to the even mantissa
    ([of_Q]): 53 bits of precision, subnormal numbers at the bottom of the
    range, an infinity from [2 ^ 1024] on.  The special values follow
    IEEE: a non-zero number divided by zero is an infinity, [0 / 0] and
    [inf - inf] are NaN, and every comparison with NaN is false.  There is
    a single zero: the sign of a zero is not modelled.  A mean adds its
    values in table order. *)

From Stdlib Require Import ZArith QArith Qround Qpower Qabs List Bool Lia Lqa.
From Stdlib Require Import Sorted.
From Stdlib Require Import DecimalString DecimalZ.
From stdpp Require Import gmap strings list fin_maps.

Local Open Scope Z_scope.

(** ** Floating-point values *)

Inductive float : Type :=
| Fin (q : Q)
| PInf
| NInf
| NaN.

Definition Qeqb0 (q : Q) : bool := (Qnum q =? 0)%Z.
Definition Qposb (q : Q) : bool := (0 <? Qnum q)%Z.
Definition Qltb (a b : Q) : bool :=
  (Qnum a * Zpos (Qden b) <? Qnum b * Zpos (Qden a))%Z.

(** Round half to even: the nearest integer, a tie going to the even
    one. *)
Definition round_half_even (q : Q) : Z :=
  let f := Qfloor q in
  let r := (q - inject_Z f)%Q in
  if Qltb r (1 # 2) then f
  else if Qltb (1 # 2) r then f + 1
  else if Z.even f then f else f + 1.

(** [floor (log2 q)] for a positive [q]. *)
Definition Qlog2 (q : Q) : Z :=
  if Qle_bool 1 q then Z.log2 (Qfloor q)
  else - Z.log2_up (Qceiling (/ q)).

(** The exponent of the unit in the last place of the doubles around the
    magnitude [a]: 52 below the exponent of [a], and -1074 for the
    subnormal numbers. *)
Definition ulp_exp (a : Q) : Z := Z.max (-1074) (Qlog2 a - 52).

(** The multiple of the unit in the last place nearest to the magnitude
    [a], a tie going to the even multiple. *)
Definition nearest_abs (a : Q) : Q :=
  (inject_Z (round_half_even (a * 2 ^ (- ulp_exp a))) * 2 ^ ulp_exp a)%Q.

Definition nearest (q : Q) : Q :=
  if Qposb q then nearest_abs (Qabs q) else (- nearest_abs (Qabs q))%Q.

(** The double nearest to [q]: what an operation whose exact result is
    [q] returns. *)
Definition of_Q (q : Q) : float :=
  let r := Qred (nearest q) in
  if Qle_bool (2 ^ 1024) (Qabs r) then if Qposb r then PInf else NInf
  else Fin r.

(** An integer as a double; the integers of the program (years, months
    and the lengths of lists) are below [2 ^ 53] and have a double of
    their own. *)
Definition of_Z (z : Z) : float := Fin (inject_Z z).
Definition of_nat (n : nat) : float := of_Z (Z.of_nat n).

(** [pd.isna] *)
Definition isna (x : float) : bool :=
  match x with NaN => true | _ => false end.

Definition fneg (x : float) : float :=
  match x with
  | Fin q => Fin (Qred (- q))
  | PInf => NInf
  | NInf => PInf
  | NaN => NaN
  end.

Definition fadd (x y : float) : float :=
  match x, y with
  | NaN, _ | _, NaN => NaN
  | Fin a, Fin b => of_Q (a + b)
  | PInf, NInf | NInf, PInf => NaN
  | PInf, _ | _, PInf => PInf
  | NInf, _ | _, NInf => NInf
  end.

Definition fsub (x y : float) : float := fadd x (fneg y).

Definition fmul (x y : float) : float :=
  match x, y with
  | NaN, _ | _, NaN => NaN
  | Fin a, Fin b => of_Q (a * b)
  | Fin a, PInf | PInf, Fin a =>
      if Qeqb0 a then NaN else if Qposb a then PInf else NInf
  | Fin a, NInf | NInf, Fin a =>
      if Qeqb0 a then NaN else if Qposb a then NInf else PInf
  | PInf, PInf | NInf, NInf => PInf
  | PInf, NInf | NInf, PInf => NaN
  end.

(** Division as numpy does it: no exception, [x / 0] is an infinity with
    the sign of [x], and [0 / 0] is NaN. *)
Definition fdiv (x y : float) : float :=
  match x, y with
  | NaN, _ | _, NaN => NaN
  | Fin a, Fin b =>
      if Qeqb0 b then
        if Qeqb0 a then NaN else if Qposb a then PInf else NInf
      else of_Q (a / b)
  | Fin _, (PInf | NInf) => Fin 0
  | PInf, Fin b => if Qposb b || Qeqb0 b then PInf else NInf
  | NInf, Fin b => if Qposb b || Qeqb0 b then NInf else PInf
  | (PInf | NInf), (PInf | NInf) => NaN
  end.

(** [x < y]; false as soon as one side is NaN. *)
Definition fltb (x y : float) : bool :=
  match x, y with
  | NaN, _ | _, NaN => false
  | Fin a, Fin b => Qltb a b
  | NInf, (Fin _ | PInf) => true
  | Fin _, PInf => true
  | _, _ => false
  end.

(** [x > y] *)
Definition fgtb (x y : float) : bool := fltb y x.

(** [x != 0] *)
Definition fneqb0 (x : float) : bool :=
  match x with Fin q => negb (Qeqb0 q) | _ => true end.

(** The order of the doubles, the infinities included; NaN is not
    ordered. *)
Definition fle (x y : float) : Prop :=
  match x, y with
  | NaN, _ | _, NaN => False
  | NInf, _ | _, PInf => True
  | Fin a, Fin b => (a <= b)%Q
  | _, _ => False
  end.

(** [round(x, ndigits)] of Python: the value of the double [x] is
    rounded half to even to [ndigits] decimals, and the result is the
    double nearest to that decimal number; an infinity or a NaN is
    returned unchanged. *)
Definition round (x : float) (ndigits : nat) : float :=
  match x with
  | Fin q =>
      let p := (10 ^ Z.of_nat ndigits)%Z in
      of_Q (inject_Z (round_half_even (q * inject_Z p)) / inject_Z p)
  | _ => x
  end.

(** ** The table and its series *)

(** A [DATE] cell; only [dt.year] and [dt.month] are read. *)
Record date : Type := { year : Z; month : Z; day : Z }.

(** An entry of the [(Year, Month)] MultiIndex. *)
Definition key : Type := (Z * Z)%type.

(** A pandas Series indexed by [(Year, Month)]: its items in index order. *)
Definition Series : Type := list (key * float).

(** The loaded table: the [DATE] column and one column of doubles per
    index, in column order. *)
Record DataFrame : Type := {
  DATE : list date;
  index_columns : list (string * list float)
}.

(** [data.columns] *)
Definition columns (data : DataFrame) : list string :=
  "DATE"%string :: (index_columns data).*1.

Definition key_ltb (a b : key) : bool :=
  (a.1 <? b.1) || ((a.1 =? b.1) && (a.2 <? b.2)).

Definition key_eqb (a b : key) : bool :=
  (a.1 =? b.1) && (a.2 =? b.2).

Definition key_lt (a b : key) : Prop :=
  a.1 < b.1 ∨ (a.1 = b.1 ∧ a.2 < b.2).

(** The group keys of [groupby]: sorted, each once. *)
Fixpoint insert_key (k : key) (ks : list key) : list key :=
  match ks with
  | [] => [k]
  | k' :: ks' =>
      if key_ltb k k' then k :: ks
      else if key_eqb k k' then ks
      else k' :: insert_key k ks'
  end.

Definition group_keys (ks : list key) : list key :=
  foldr insert_key [] ks.

Definition dropna (vs : list float) : list float :=
  filter (λ v, isna v = false) vs.

Definition fsum (vs : list float) : float :=
  foldl fadd (Fin 0) vs.

(** [Series.mean()] and the mean of a group: NaN cells are skipped, and
    the mean of no value at all is NaN. *)
Definition mean (vs : list float) : float :=
  let xs := dropna vs in
  match xs with
  | [] => NaN
  | _ => fdiv (fsum xs) (of_nat (length xs))
  end.

(** The rows of a group, in table order. *)
Definition group_values (rows : list (key * float)) (k : key) : list float :=
  (filter (λ r, key_eqb r.1 k = true) rows).*2.

(** [df.groupby(['Year', 'Month'])[index_name].mean()] on rows already
    keyed by [(Year, Month)]. *)
Definition groupby_mean (rows : list (key * float)) : Series :=
  (λ k, (k, mean (group_values rows k))) <$> group_keys rows.*1.

(** [s.shift(1)]: same index, values moved one place down, NaN first. *)
Definition shift1 (s : Series) : Series :=
  zip s.*1 (NaN :: s.*2).

(** [a / b] on two series with the same index. *)
Definition Series_div (a b : Series) : Series :=
  zip_with (λ x y, (x.1, fdiv x.2 y.2)) a b.

(** [s - c] *)
Definition Series_sub_scalar (s : Series) (c : float) : Series :=
  (λ x, (x.1, fsub x.2 c)) <$> s.

(** [s.loc[idx]], defined when [idx in s.index]. *)
Fixpoint loc (s : Series) (idx : key) : option float :=
  match s with
  | [] => None
  | (k, v) :: s' => if key_eqb k idx then Some v else loc s' idx
  end.

(** [calculate_mom_returns] *)
Definition calculate_mom_returns (monthly_avg : Series) : Series :=
  Series_sub_scalar (Series_div monthly_avg (shift1 monthly_avg)) (Fin 1).

(** ** Exceptions, the cache and the service monad *)

Inductive exn : Type :=
| ValueError (msg : string)
| KeyError (msg : string)
| AttributeError (msg : string).

(** A method of the service reads and writes [self._cache] and either
    returns a value or raises. *)
Definition M (A : Type) : Type :=
  gmap string Series → (exn + A) * gmap string Series.

Definition raise {A} (e : exn) : M A := λ c, (inl e, c).

#[export] Instance M_ret : MRet M := λ A (a : A) c, (inr a, c).

#[export] Instance M_bind : MBind M := λ A B (f : A → M B) (m : M A) c,
  match m c with
  | (inl e, c') => (inl e, c')
  | (inr a, c') => f a c'
  end.

(** [try: body except: handler] *)
Definition try_except {A} (body : M A) (handler : M A) : M A := λ c,
  match body c with
  | (inl _, c') => handler c'
  | r => r
  end.

(** [str] of an integer. *)
Definition str (z : Z) : string := NilZero.string_of_int (Z.to_int z).

(** [sep.join(args)] *)
Fixpoint join (sep : string) (args : list string) : string :=
  match args with
  | [] => ""
  | [a] => a
  | a :: rest => a +:+ sep +:+ join sep rest
  end.

(** The year -> month -> value dictionaries the operations return; a
    cell holds [None] or a value. *)
Abbreviation Matrix V := (gmap string (gmap string (option V))).

(** The two statements every loop over buckets runs:
    [if year_str not in m: m[year_str] = {}] and
    [m[year_str][month_str] = v]. *)
Definition set_cell {V} (m : Matrix V) (year_str month_str : string)
    (v : option V) : Matrix V :=
  let m := match m !! year_str with
           | None => <[year_str := ∅]> m
           | Some _ => m
           end in
  alter (λ row, <[month_str := v]> row) year_str m.

(** [m[str(year)][str(month)]] *)
Definition cell {V} (m : Matrix V) (idx : key) : option (option V) :=
  m !! str idx.1 ≫= λ row, row !! str idx.2.

Definition index_not_found (index_name : string) : string :=
  "Index '" +:+ index_name +:+ "' not found in data".

Definition invalid_forward_period (forward_period : string) : string :=
  "Invalid forward period: " +:+ forward_period.

(** [period_map] of [calculate_forward_returns] *)
Definition period_map : gmap string nat :=
  list_to_map
    [("1M", 1%nat); ("3M", 3%nat); ("6M", 6%nat); ("1Y", 12%nat);
     ("2Y", 24%nat); ("3Y", 36%nat); ("4Y", 48%nat)]%string.

(** [df['Year'] = df['DATE'].dt.year] on the selection [df] of [DATE]
    and the column [col]: a column is added, unless [col] is itself
    named Year; the assignment then replaces the cells of [col] by the
    years. *)
Definition assign_Year (col : string) (df : list (date * float))
    : list (date * float) :=
  if bool_decide (col = "Year"%string) then
    (λ r, (r.1, of_Z (year r.1))) <$> df
  else df.

(** [df['Month'] = df['DATE'].dt.month], likewise. *)
Definition assign_Month (col : string) (df : list (date * float))
    : list (date * float) :=
  if bool_decide (col = "Month"%string) then
    (λ r, (r.1, of_Z (month r.1))) <$> df
  else df.

Section HeatmapService.

(** [self.data] *)
Variable data : DataFrame.

Definition _get_cache_key (index_name operation : string)
    (args : list string) : string :=
  index_name +:+ ":" +:+ operation +:+ ":" +:+ join ":" args.

(** [index_name in self.data.columns] *)
Definition in_columns (index_name : string) : bool :=
  bool_decide (index_name ∈ columns data).

(** [self.data[['DATE', col]]] with its rows keyed by
    [(DATE.dt.year, DATE.dt.month)].  A name that is no column raises
    KeyError; for ['DATE'] itself the selection has two DATE columns
    and [.dt] fails on it. *)
Definition select (col : string) : exn + list (date * float) :=
  if bool_decide (col = "DATE"%string) then
    inl (AttributeError "'DataFrame' object has no attribute 'dt'")
  else
    match list_find (λ c, c.1 = col) (index_columns data) with
    | Some (_, (_, vs)) => inr (zip (DATE data) vs)
    | None => inl (KeyError col)
    end.

Definition year_month (d : date) : key := (year d, month d).

Definition calculate_monthly_average (index_name : string) : M Series :=
  λ _cache,
  let cache_key := _get_cache_key index_name "monthly_avg" [] in
  match _cache !! cache_key with
  | Some cached => (inr cached, _cache)
  | None =>
      match select index_name with
      | inl e => (inl e, _cache)
      | inr df =>
          let df := assign_Year index_name df in
          let df := assign_Month index_name df in
          let monthly_avg :=
            groupby_mean ((λ r, (year_month r.1, r.2)) <$> df) in
          (inr monthly_avg, <[cache_key := monthly_avg]> _cache)
      end
  end.

(** The cell written for a bucket: [None] for NaN, else the value
    rounded. *)
Definition rounded_cell (value : float) (ndigits : nat) : option float :=
  if isna value then None else Some (round value ndigits).

(** The index of a groupby result has no repeated entry, so the loop
    [for idx in s.index: value = s.loc[idx]] visits the items of [s]. *)
Definition generate_heatmap_matrix (index_name : string) : M (Matrix float) :=
  if negb (in_columns index_name) then
    raise (ValueError (index_not_found index_name))
  else
    monthly_avg ← calculate_monthly_average index_name;
    let mom_returns := calculate_mom_returns monthly_avg in
    mret (foldl (λ heatmap '(idx, value),
                   set_cell heatmap (str idx.1) (str idx.2)
                     (rounded_cell value 4))
                ∅ mom_returns).

Definition generate_monthly_price_matrix (index_name : string)
    : M (Matrix float) :=
  if negb (in_columns index_name) then
    raise (ValueError (index_not_found index_name))
  else
    monthly_avg ← calculate_monthly_average index_name;
    mret (foldl (λ price_matrix '(idx, value),
                   set_cell price_matrix (str idx.1) (str idx.2)
                     (rounded_cell value 2))
                ∅ monthly_avg).

Definition calculate_avg_monthly_profits_3y (index_name : string)
    : M (option float) :=
  if negb (in_columns index_name) then
    raise (ValueError (index_not_found index_name))
  else
    monthly_avg ← calculate_monthly_average index_name;
    let mom_returns := calculate_mom_returns monthly_avg in
    match last mom_returns with
    | None => mret None
    | Some (latest_date, _) =>
        let latest_year := latest_date.1 in
        let three_years_ago := latest_year - 3 in
        let recent_returns :=
          filter (λ x, three_years_ago < x.1.1) mom_returns in
        if (length recent_returns =? 0)%nat then mret None
        else
          let avg := mean recent_returns.*2 in
          mret (if isna avg then None else Some (round avg 6))
    end.

(** [df['Year'].max()]; NaN (here [None]) on a table without rows. *)
Definition max_year (years : list Z) : option Z :=
  match years with
  | [] => None
  | y :: ys => Some (foldl Z.max y ys)
  end.

(** [df[df['Year'] > four_years_ago]]; no row passes when the bound is
    NaN. *)
Definition rows_after (four_years_ago : option Z)
    (df : list (date * float)) : list (date * float) :=
  match four_years_ago with
  | None => []
  | Some y => filter (λ r, y < year r.1) df
  end.

(** [values.iloc[0]] and [values.iloc[-1]] *)
Definition iloc_first (values : list float) : float := default NaN (head values).
Definition iloc_last (values : list float) : float := default NaN (last values).

(** [sum(1 for r in rs if r < x)] *)
Definition count_lt (rs : list float) (x : float) : nat :=
  length (filter (λ r, fltb r x = true) rs).

(** [sum(1 for r in rs if r > x)] *)
Definition count_gt (rs : list float) (x : float) : nat :=
  length (filter (λ r, fgtb r x = true) rs).

(** The body of the loop of [calculate_rank_percentile_4y] over the
    columns: the cumulative return of column [col] over the window is
    appended when the column has two non-absent values there; a column
    whose computation raises is skipped. *)
Definition append_column_return (four_years_ago : option Z)
    (all_returns : list float) (col : string) : list float :=
  if bool_decide (col = "DATE"%string) then all_returns
  else
    match select col with
    | inl _ => all_returns
    | inr col_df =>
        let col_df := assign_Year col col_df in
        let col_df_4y := rows_after four_years_ago col_df in
        let col_values := dropna col_df_4y.*2 in
        if (2 <=? length col_values)%nat then
          let col_return :=
            fsub (fdiv (iloc_last col_values) (iloc_first col_values))
                 (Fin 1) in
          all_returns ++ [col_return]
        else all_returns
    end.

Definition calculate_rank_percentile_4y (index_name : string)
    : M (option float) :=
  if negb (in_columns index_name) then
    raise (ValueError (index_not_found index_name))
  else
    match select index_name with
    | inl e => raise e
    | inr df =>
        let df := assign_Year index_name df in
        let latest_year := max_year ((λ r, year r.1) <$> df) in
        let four_years_ago := (λ y, y - 4) <$> latest_year in
        let df_4y := rows_after four_years_ago df in
        if (length df_4y =? 0)%nat then mret None
        else
          let values := dropna df_4y.*2 in
          if (length values <? 2)%nat then mret None
          else
            let cumulative_return :=
              fsub (fdiv (iloc_last values) (iloc_first values)) (Fin 1) in
            let all_returns :=
              foldl (append_column_return four_years_ago) [] (columns data) in
            if (length all_returns =? 0)%nat then mret None
            else
              let percentile :=
                fmul (fdiv (of_nat (count_lt all_returns cumulative_return))
                           (of_nat (length all_returns)))
                     (Fin 100) in
              mret (Some (round percentile 2))
    end.

Definition calculate_inverse_rank_percentile (index_name : string)
    : M (option float) :=
  rank_percentile ← calculate_rank_percentile_4y index_name;
  match rank_percentile with
  | None => mret None
  | Some rank_percentile => mret (Some (round (fsub (Fin 100) rank_percentile) 2))
  end.

(** [d[k] = v] on a dictionary kept in insertion order. *)
Fixpoint dict_set {V} (d : list (string * V)) (k : string) (v : V)
    : list (string * V) :=
  match d with
  | [] => [(k, v)]
  | (k', v') :: d' =>
      if bool_decide (k' = k) then (k, v) :: d'
      else (k', v') :: dict_set d' k v
  end.

(** A [for] loop whose body runs in the service monad. *)
Fixpoint for_each {A B} (xs : list A) (body : B → A → M B) (acc : B) : M B :=
  match xs with
  | [] => mret acc
  | x :: xs' => acc' ← body acc x; for_each xs' body acc'
  end.

(** The inner loop of [calculate_monthly_rank_position]: the returns of
    the other indices in bucket [idx]. *)
Definition same_month_returns (index_name : string)
    (all_indices_returns : list (string * Series)) (idx : key) : list float :=
  foldl (λ same_month_returns '(col, col_returns),
           if bool_decide (col = index_name) then same_month_returns
           else
             match loc col_returns idx with
             | Some col_value =>
                 if negb (isna col_value) then same_month_returns ++ [col_value]
                 else same_month_returns
             | None => same_month_returns
             end)
        [] all_indices_returns.

(** The body of the first loop of [calculate_monthly_rank_position]:
    the return series of column [col] is filed under its name; a column
    whose computation raises is skipped. *)
Definition collect_returns (all_indices_returns : list (string * Series))
    (col : string) : M (list (string * Series)) :=
  if bool_decide (col = "DATE"%string) then mret all_indices_returns
  else
    try_except
      (col_monthly_avg ← calculate_monthly_average col;
       let col_mom_returns := calculate_mom_returns col_monthly_avg in
       mret (dict_set all_indices_returns col col_mom_returns))
      (mret all_indices_returns).

Definition calculate_monthly_rank_position (index_name : string)
    : M (Matrix Z) :=
  if negb (in_columns index_name) then
    raise (ValueError (index_not_found index_name))
  else
    monthly_avg ← calculate_monthly_average index_name;
    let mom_returns := calculate_mom_returns monthly_avg in
    all_indices_returns ← for_each (columns data) collect_returns [];
    mret (foldl (λ rank_matrix '(idx, value),
                   let year_str := str idx.1 in
                   let month_str := str idx.2 in
                   if isna value then set_cell rank_matrix year_str month_str None
                   else
                     let same_month_returns :=
                       same_month_returns index_name all_indices_returns idx in
                     if (0 <? length same_month_returns)%nat then
                       let rank_position :=
                         (count_gt same_month_returns value + 1)%nat in
                       set_cell rank_matrix year_str month_str
                         (Some (Z.of_nat rank_position))
                     else set_cell rank_matrix year_str month_str None)
                ∅ mom_returns).

(** The body of the loop of [calculate_forward_returns] for item [i]. *)
Definition forward_cell (monthly_list : Series) (months_forward i : nat)
    (current_value : float) : option float :=
  let future_idx := (i + months_forward)%nat in
  if (future_idx <? length monthly_list)%nat then
    match monthly_list !! future_idx with
    | Some (_, future_value) =>
        if negb (isna current_value) && negb (isna future_value)
           && fneqb0 current_value then
          let forward_return :=
            fsub (fdiv future_value current_value) (Fin 1) in
          Some (round forward_return 4)
        else None
    | None => None
    end
  else None.

(** [enumerate(xs)] *)
Definition enumerate {A} (xs : list A) : list (nat * A) :=
  zip (seq 0 (length xs)) xs.

Definition calculate_forward_returns (index_name forward_period : string)
    : M (Matrix float) :=
  if negb (in_columns index_name) then
    raise (ValueError (index_not_found index_name))
  else
    match period_map !! forward_period with
    | None => raise (ValueError (invalid_forward_period forward_period))
    | Some months_forward =>
        monthly_avg ← calculate_monthly_average index_name;
        let monthly_list := monthly_avg in
        mret (foldl (λ forward_returns '(i, (idx, current_value)),
                       set_cell forward_returns (str idx.1) (str idx.2)
                         (forward_cell monthly_list months_forward i
                            current_value))
                    ∅ (enumerate monthly_list))
    end.

End HeatmapService.

(** ** What the properties are stated with *)

(** The return series written as a recursion that carries the previous
    value. *)
Fixpoint mom_from (prev : float) (s : Series) : Series :=
  match s with
  | [] => []
  | (idx, current) :: s' =>
      (idx, fsub (fdiv current prev) (Fin 1)) :: mom_from current s'
  end.

(** A loaded table: column names are distinct and every column has one
    cell per row. *)
Definition wf_table (data : DataFrame) : Prop :=
  NoDup (columns data)
  ∧ Forall (λ c, length c.2 = length (DATE data)) (index_columns data).



(** The monthly series of a column, computed afresh. *)
Definition monthly_series (data : DataFrame) (vs : list float) : Series :=
  groupby_mean ((λ r, (year_month r.1, r.2)) <$> zip (DATE data) vs).

(** The cells [calculate_monthly_average] averages for the column
    [name] with the cells [vs]: the column's own, unless the column is
    named Year or Month, whose cells the two assignments have replaced
    by the years or the months of the dates. *)
Definition averaged_column (data : DataFrame) (name : string)
    (vs : list float) : list float :=
  (assign_Month name (assign_Year name (zip (DATE data) vs))).*2.

(** The cells [calculate_rank_percentile_4y] reads for the column
    [name]: the column's own, unless the column is named Year. *)
Definition ranked_column (data : DataFrame) (name : string)
    (vs : list float) : list float :=
  (assign_Year name (zip (DATE data) vs)).*2.

(** Every entry of the cache is the monthly series of the column it is
    filed under. *)
Definition cache_ok (data : DataFrame) (c : gmap string Series) : Prop :=
  ∀ k s, c !! k = Some s →
    ∃ name df, k = _get_cache_key name "monthly_avg" []
      ∧ select data name = inr df
      ∧ s = groupby_mean ((λ r, (year_month r.1, r.2))
                            <$> assign_Month name (assign_Year name df)).

(** A small table used for examples: five daily rows over four months,
    two indices. *)
Definition example_table : DataFrame := {|
  DATE := [ {| year := 2020; month := 1; day := 1 |};
            {| year := 2020; month := 1; day := 2 |};
            {| year := 2020; month := 2; day := 3 |};
            {| year := 2020; month := 3; day := 2 |};
            {| year := 2021; month := 1; day := 4 |} ];
  index_columns :=
    [ ("A"%string, [Fin 3; Fin 3; Fin 4; NaN; Fin 6]);
      ("B"%string, [Fin 10; Fin 10; Fin 20; Fin 10; Fin 5]) ]
|}.

(** The month-over-month returns of a column, computed afresh. *)
Definition mom_series (data : DataFrame) (vs : list float) : Series :=
  calculate_mom_returns (monthly_series data vs).

(** The monthly series and the month-over-month returns the service
    computes for the column [name] with the cells [vs]. *)
Definition monthly_avg_of (data : DataFrame) (name : string)
    (vs : list float) : Series :=
  monthly_series data (averaged_column data name vs).

Definition mom_returns_of (data : DataFrame) (name : string)
    (vs : list float) : Series :=
  mom_series data (averaged_column data name vs).

(** The returns the other indices have in bucket [idx], absent ones left
    out: the peers an index is ranked against in that bucket. *)
Definition peer_returns (data : DataFrame) (index_name : string) (idx : key)
    : list float :=
  omap (λ col : string * list float,
          if bool_decide (col.1 = index_name) then None
          else
            match loc (mom_returns_of data col.1 col.2) idx with
            | Some w => if isna w then None else Some w
            | None => None
            end)
       (index_columns data).

(** The non-absent daily values of a column in the trailing window: the
    rows whose year is later than the latest year of the table minus
    four. *)
Definition window_values (data : DataFrame) (vs : list float) : list float :=
  dropna (rows_after ((λ y, y - 4) <$> max_year (year <$> DATE data))
            (zip (DATE data) vs)).*2.

(** [(last / first) - 1] *)
Definition cumulative_return (values : list float) : float :=
  fsub (fdiv (iloc_last values) (iloc_first values)) (Fin 1).

(** The cumulative return of a column over the window, when it has at
    least two non-absent values there. *)
Definition comparable_return (data : DataFrame) (vs : list float)
    : option float :=
  let values := window_values data vs in
  if (2 <=? length values)%nat then Some (cumulative_return values) else None.

(** The cumulative return the service computes for the column [name]
    with the cells [vs]. *)
Definition comparable_return_of (data : DataFrame) (name : string)
    (vs : list float) : option float :=
  comparable_return data (ranked_column data name vs).

(** The cumulative returns of the comparable indices other than
    [index_name]. *)
Definition peer_cumulative_returns (data : DataFrame) (index_name : string)
    : list float :=
  omap (λ col : string * list float,
          if bool_decide (col.1 = index_name) then None
          else comparable_return_of data col.1 col.2)
       (index_columns data).

(** [round((k / n) * 100, 2)]: the percentile of [k] among [n], as the
    last two lines of [calculate_rank_percentile_4y] compute it. *)
Definition percentile (k n : nat) : float :=
  round (fmul (fdiv (of_nat k) (of_nat n)) (Fin 100)) 2.

(** Two doubles that are the same number (or both NaN). *)
Definition same_double (x y : float) : bool :=
  match x, y with
  | Fin a, Fin b => Qeq_bool a b
  | PInf, PInf | NInf, NInf | NaN, NaN => true
  | _, _ => false
  end.

(** [round(100 - x, 2)] is the double of the decimal number
    [100 - z / 100] when [x] is the double of [z / 100]. *)
Definition complement_ok (z : Z) : bool :=
  same_double
    (round (fsub (Fin 100) (of_Q (inject_Z z / inject_Z 100))) 2)
    (of_Q (inject_Z (10000 - z) / inject_Z 100)).

(** The rank percentile as claim C1 words it: the peers with a strictly
    smaller return over the number of comparable peers, times 100, to two
    decimals; absent with fewer than two observations or without a
    comparable peer. *)
Definition rank_percentile_as_claimed (data : DataFrame)
    (index_name : string) (vs : list float) : option float :=
  let values := window_values data (ranked_column data index_name vs) in
  let peers := peer_cumulative_returns data index_name in
  if (length values <? 2)%nat then None
  else if (length peers =? 0)%nat then None
  else Some (round (fmul (fdiv (of_nat (count_lt peers (cumulative_return values)))
                               (of_nat (length peers)))
                         (Fin 100)) 2).

(** The [n] integers from [z] on. *)
Fixpoint numbers_from (z : Z) (n : nat) : list Z :=
  match n with
  | O => []
  | S n' => z :: numbers_from (z + 1) n'
  end.

(** A table of January and February 2020, three rows each.  As exact
    numbers A and B both lose five sixths from one month to the next. *)
Definition near_tie_table : DataFrame := {|
  DATE := [ {| year := 2020; month := 1; day := 1 |};
            {| year := 2020; month := 1; day := 2 |};
            {| year := 2020; month := 1; day := 3 |};
            {| year := 2020; month := 2; day := 1 |};
            {| year := 2020; month := 2; day := 2 |};
            {| year := 2020; month := 2; day := 3 |} ];
  index_columns :=
    [ ("A"%string, [Fin 2; Fin 2; Fin 2; Fin 0; Fin 0; Fin 1]);
      ("B"%string, [Fin 10; Fin 10; Fin 10; Fin 1; Fin 2; Fin 2]) ]
|}.


(** A table of two rows and seven indices: LOW halves, MID stays and
    the five others double. *)
Definition seven_indices : DataFrame := {|
  DATE := [ {| year := 2020; month := 1; day := 1 |};
            {| year := 2020; month := 1; day := 2 |} ];
  index_columns :=
    [ ("LOW"%string, [Fin 2; Fin 1]); ("MID"%string, [Fin 1; Fin 1]);
      ("H1"%string, [Fin 1; Fin 2]); ("H2"%string, [Fin 1; Fin 2]);
      ("H3"%string, [Fin 1; Fin 2]); ("H4"%string, [Fin 1; Fin 2]);
      ("H5"%string, [Fin 1; Fin 2]) ]
|}.


(** ** Memoisation *)

(** An operation is memoised when, on every consistent cache, it returns
    what it returns on the empty cache, leaves the cache consistent and
    keeps every entry the cache had. *)
Definition memoised {A} (data : DataFrame) (m : M A) : Prop :=
  ∀ c, cache_ok data c →
    (m c).1 = (m ∅).1 ∧ cache_ok data (m c).2 ∧ c ⊆ (m c).2.

(** The month-over-month returns of a column in the trailing window of
    three years: the buckets whose year is later than the latest year of
    the table minus three. *)
Definition recent_returns (data : DataFrame) (vs : list float) : list float :=
  match max_year (year <$> DATE data) with
  | None => []
  | Some latest_year =>
      (filter (λ x : key * float, latest_year - 3 < x.1.1)
         (mom_series data vs)).*2
  end.

(** ** The endpoint [get_heatmap] of [main.py] *)

(** [HTTPException(status_code=..., detail=...)] *)
Inductive HTTPException : Type :=
| mkHTTPException (status_code : Z) (detail : string).

(** The response of the endpoint.  Its class is declared in
    [models/schemas.py], which is not among the sources: the fields are
    the keyword arguments the endpoint builds it from. *)
Record HeatmapResponse : Type := {
  index : string;
  heatmap : Matrix float;
  monthly_price : Matrix float;
  monthly_profits : Matrix float;
  avg_monthly_profits_3y : option float;
  rank_percentile_4y : option float;
  inverse_rank_percentile : option float;
  monthly_rank_percentile : Matrix Z
}.

Section Endpoint.

(** The table [cached_service] was built from at startup. *)
Variable data : DataFrame.

(** What [csv_loader.get_index_columns()] returns; the loader is not
    among the sources. *)
Variable get_index_columns : list string.

(** Python's [repr] of a string, which [str] of a [KeyError] shows. *)
Variable repr : string → string.

(** [str(e)] *)
Definition str_exn (e : exn) : string :=
  match e with
  | ValueError msg => msg
  | KeyError k => repr k
  | AttributeError msg => msg
  end.

Definition index_not_listed (index_name : string) : string :=
  "Index '" +:+ index_name
  +:+ "' not found. Use /indices to see available indices.".

(** [get_heatmap]; [forward_period] is [None] when the query parameter
    is left out.  The state threaded through is the cache of
    [cached_service]. *)
Definition get_heatmap (index_name : string) (forward_period : option string)
    : gmap string Series
      → (HTTPException + HeatmapResponse) * gmap string Series :=
  λ _cache,
  if negb (bool_decide (index_name ∈ get_index_columns)) then
    (inl (mkHTTPException 404 (index_not_listed index_name)), _cache)
  else
    let body : M HeatmapResponse :=
      heatmap_data ←
        match forward_period with
        | Some period =>
            if bool_decide (period ≠ ""%string) then
              calculate_forward_returns data index_name period
            else generate_heatmap_matrix data index_name
        | None => generate_heatmap_matrix data index_name
        end;
      monthly_price ← generate_monthly_price_matrix data index_name;
      monthly_profits ← generate_heatmap_matrix data index_name;
      avg_monthly_profits_3y ←
        calculate_avg_monthly_profits_3y data index_name;
      rank_percentile_4y ← calculate_rank_percentile_4y data index_name;
      inverse_rank_percentile ←
        calculate_inverse_rank_percentile data index_name;
      monthly_rank_percentile ←
        calculate_monthly_rank_position data index_name;
      mret {| index := index_name;
              heatmap := heatmap_data;
              monthly_price := monthly_price;
              monthly_profits := monthly_profits;
              avg_monthly_profits_3y := avg_monthly_profits_3y;
              rank_percentile_4y := rank_percentile_4y;
              inverse_rank_percentile := inverse_rank_percentile;
              monthly_rank_percentile := monthly_rank_percentile |} in
    match body _cache with
    | (inr response, _cache') => (inr response, _cache')
    | (inl e, _cache') =>
        (inl (mkHTTPException 500
                ("Error generating heatmap: " +:+ str_exn e)), _cache')
    end.

End Endpoint.

(** * Properties *)

(** ** Arithmetic of the float model *)

Arguments of_Q : simpl never.

Lemma Qeqb0_true (q : Q) : Qeqb0 q = true ↔ (q == 0)%Q.
Proof.
  unfold Qeqb0, Qeq. simpl. rewrite Z.eqb_eq. lia.
Qed.

Lemma Qeqb0_false (q : Q) : Qeqb0 q = false ↔ ¬ (q == 0)%Q.
Proof.
  rewrite <- Qeqb0_true. destruct (Qeqb0 q); intuition congruence.
Qed.

Lemma Qltb_lt (a b : Q) : Qltb a b = true ↔ (a < b)%Q.
Proof. unfold Qltb, Qlt. apply Z.ltb_lt. Qed.

Lemma Qltb_irrefl (a : Q) : Qltb a a = false.
Proof. unfold Qltb. apply Z.ltb_irrefl. Qed.

Lemma Qposb_lt (q : Q) : Qposb q = true ↔ (0 < q)%Q.
Proof.
  unfold Qposb, Qlt. simpl. rewrite Z.ltb_lt. lia.
Qed.

Lemma Qposb_false (q : Q) : Qposb q = false ↔ (q <= 0)%Q.
Proof.
  split.
  - intros H. apply Qnot_lt_le. intros Hq%Qposb_lt. congruence.
  - intros H. destruct (Qposb q) eqn:Hp; [|done]. apply Qposb_lt in Hp. lra.
Qed.

Lemma Qred_le (p q : Q) : (p <= q)%Q → (Qred p <= Qred q)%Q.
Proof.
  intros H. pose proof (Qred_correct p). pose proof (Qred_correct q). lra.
Qed.

Lemma fltb_irrefl (x : float) : fltb x x = false.
Proof. destruct x; simpl; auto using Qltb_irrefl. Qed.

(** *** Powers of two *)

Lemma Qpow2_pos (e : Z) : (0 < 2 ^ e)%Q.
Proof. by apply Qpower_0_lt. Qed.

Lemma Qpow2_Z (e : Z) : 0 ≤ e → (2 ^ e == inject_Z (2 ^ e))%Q.
Proof. intros He. by rewrite Zpower_Qpower. Qed.

Lemma Qpow2_plus (a b : Z) : (2 ^ (a + b) == 2 ^ a * 2 ^ b)%Q.
Proof. by apply Qpower_plus. Qed.

Lemma Qpow2_opp (e : Z) : (2 ^ (- e) == / 2 ^ e)%Q.
Proof. apply Qpower_opp. Qed.

Lemma Qpow2_le (a b : Z) : a ≤ b → (2 ^ a <= 2 ^ b)%Q.
Proof. intros H. by apply Qpower_le_compat_l. Qed.

(** [Qlog2 q] is the exponent of [q]. *)
Lemma Qlog2_spec (q : Q) :
  (0 < q)%Q → (2 ^ Qlog2 q <= q)%Q ∧ (q < 2 ^ (Qlog2 q + 1))%Q.
Proof.
  intros Hq. unfold Qlog2. destruct (Qle_bool 1 q) eqn:H1.
  - apply Qle_bool_iff in H1.
    assert (Hn : 1 ≤ Qfloor q).
    { change 1 with (Qfloor 1). by apply Qfloor_resp_le. }
    destruct (Z.log2_spec (Qfloor q)) as [Hlo Hhi]; [lia|].
    pose proof (Z.log2_nonneg (Qfloor q)) as Hl.
    rewrite !Qpow2_Z by lia. split.
    + apply Qle_trans with (inject_Z (Qfloor q)); [|apply Qfloor_le].
      by rewrite <- Zle_Qle.
    + apply Qlt_le_trans with (inject_Z (Qfloor q + 1)); [apply Qlt_floor|].
      rewrite <- Zle_Qle. unfold Z.succ in Hhi. lia.
  - assert (Hlt : (q < 1)%Q).
    { apply Qnot_le_lt. intros H. apply Qle_bool_iff in H. congruence. }
    set (x := (/ q)%Q).
    assert (Hx : (1 < x)%Q).
    { subst x. apply Qlt_shift_inv_l; [done|]. by rewrite Qmult_1_l. }
    assert (Hqx : (q == / x)%Q).
    { subst x. rewrite Qinv_involutive. reflexivity. }
    assert (Hc : 1 < Qceiling x).
    { rewrite Zlt_Qlt. apply Qlt_le_trans with x; [done|apply Qle_ceiling]. }
    destruct (Z.log2_up_spec (Qceiling x) Hc) as [Hlo Hhi].
    pose proof (Z.log2_up_pos (Qceiling x) Hc) as Hu.
    set (u := Z.log2_up (Qceiling x)) in *. clearbody u.
    assert (Hx0 : (0 < x)%Q) by lra.
    split.
    + rewrite Qpow2_opp, Hqx. rewrite Qpow2_Z by lia.
      apply Qle_shift_inv_l; [done|].
      rewrite Qmult_comm. apply Qle_shift_div_r.
      * rewrite <- Qpow2_Z by lia. apply Qpow2_pos.
      * rewrite Qmult_1_l.
        apply Qle_trans with (inject_Z (Qceiling x)); [apply Qle_ceiling|].
        by rewrite <- Zle_Qle.
    + replace (- u + 1) with (- (u - 1)) by lia.
      rewrite Qpow2_opp, Hqx. rewrite Qpow2_Z by lia.
      assert (Hp : (0 < inject_Z (2 ^ (u - 1)))%Q).
      { rewrite <- Qpow2_Z by lia. apply Qpow2_pos. }
      apply Qlt_shift_inv_r; [done|].
      rewrite Qmult_comm. apply Qlt_shift_div_l; [done|].
      rewrite Qmult_1_l.
      apply Qle_lt_trans with (inject_Z (Qceiling x - 1)); [|apply Qceiling_lt].
      rewrite <- Zle_Qle. change (Z.pred u) with (u - 1) in Hlo. lia.
Qed.

Lemma Qlog2_mono (a b : Q) : (0 < a)%Q → (a <= b)%Q → Qlog2 a ≤ Qlog2 b.
Proof.
  intros Ha Hab.
  destruct (Qlog2_spec a Ha) as [Hlo _].
  destruct (Qlog2_spec b) as [_ Hhi]; [lra|].
  assert (H : (2 ^ Qlog2 a < 2 ^ (Qlog2 b + 1))%Q) by lra.
  apply Qpower_lt_compat_l_inv in H; [lia|reflexivity].
Qed.

(** *** Rounding to an integer *)

Lemma Qltb_compat (a a' b b' : Q) :
  (a == a')%Q → (b == b')%Q → Qltb a b = Qltb a' b'.
Proof.
  intros Ha Hb. apply eq_true_iff_eq. rewrite !Qltb_lt. by rewrite Ha, Hb.
Qed.

Lemma round_half_even_compat (p q : Q) :
  (p == q)%Q → round_half_even p = round_half_even q.
Proof.
  intros H. unfold round_half_even. rewrite (Qfloor_comp _ _ H).
  rewrite (Qltb_compat (p - inject_Z (Qfloor q)) (q - inject_Z (Qfloor q))
             (1 # 2) (1 # 2)) by (by rewrite ?H).
  by rewrite (Qltb_compat (1 # 2) (1 # 2) (p - inject_Z (Qfloor q))
                (q - inject_Z (Qfloor q))) by (by rewrite ?H).
Qed.

Lemma round_half_even_Z (n : Z) : round_half_even (inject_Z n) = n.
Proof.
  unfold round_half_even. rewrite Qfloor_Z.
  rewrite (proj2 (Qltb_lt _ _)); [done|]. ring_simplify. reflexivity.
Qed.

Lemma round_half_even_floor (q : Q) :
  Qfloor q ≤ round_half_even q ≤ Qfloor q + 1.
Proof.
  unfold round_half_even. repeat case_match; lia.
Qed.

Lemma round_half_even_mono (p q : Q) :
  (p <= q)%Q → round_half_even p ≤ round_half_even q.
Proof.
  intros Hpq. pose proof (Qfloor_resp_le _ _ Hpq) as Hfl.
  pose proof (round_half_even_floor p) as [_ Hp].
  pose proof (round_half_even_floor q) as [Hq _].
  destruct (decide (Qfloor p = Qfloor q)) as [Heq|Hne]; [|lia].
  unfold round_half_even. rewrite Heq.
  set (f := Qfloor q). set (rp := (p - inject_Z f)%Q).
  set (rq := (q - inject_Z f)%Q).
  assert (Hr : (rp <= rq)%Q) by (subst rp rq; lra).
  destruct (Qltb rp (1 # 2)) eqn:Hp1.
  { destruct (Qltb rq (1 # 2)); [lia|].
    destruct (Qltb (1 # 2) rq); [lia|]. destruct (Z.even f); lia. }
  assert (Hq1 : Qltb rq (1 # 2) = false).
  { destruct (Qltb rq (1 # 2)) eqn:Hq1; [|done].
    apply Qltb_lt in Hq1.
    assert (Hlt : (rp < 1 # 2)%Q) by lra.
    apply Qltb_lt in Hlt. congruence. }
  rewrite Hq1. destruct (Qltb (1 # 2) rp) eqn:Hp2.
  { apply Qltb_lt in Hp2.
    assert (Hlt : (1 # 2 < rq)%Q) by lra.
    apply Qltb_lt in Hlt. rewrite Hlt. lia. }
  destruct (Qltb (1 # 2) rq); destruct (Z.even f); lia.
Qed.

Lemma round_half_even_ge (q : Q) (m : Z) :
  (inject_Z m <= q)%Q → m ≤ round_half_even q.
Proof.
  intros H. rewrite <- (round_half_even_Z m). by apply round_half_even_mono.
Qed.

Lemma round_half_even_le (q : Q) (m : Z) :
  (q <= inject_Z m)%Q → round_half_even q ≤ m.
Proof.
  intros H. rewrite <- (round_half_even_Z m). by apply round_half_even_mono.
Qed.

(** *** Rounding to a double *)

Lemma ulp_exp_mono (a b : Q) : (0 < a)%Q → (a <= b)%Q → ulp_exp a ≤ ulp_exp b.
Proof.
  intros Ha Hab. unfold ulp_exp. pose proof (Qlog2_mono a b Ha Hab). lia.
Qed.

Lemma nearest_abs_nonneg (a : Q) : (0 <= a)%Q → (0 <= nearest_abs a)%Q.
Proof.
  intros Ha. unfold nearest_abs. apply Qmult_le_0_compat.
  - change 0%Q with (inject_Z 0). rewrite <- Zle_Qle.
    apply round_half_even_ge. change (inject_Z 0) with 0%Q.
    apply Qmult_le_0_compat; [done|]. apply Qlt_le_weak, Qpow2_pos.
  - apply Qlt_le_weak, Qpow2_pos.
Qed.

(** A magnitude is rounded to at most the power of two above it. *)
Lemma nearest_abs_le (a : Q) :
  (0 < a)%Q → (nearest_abs a <= 2 ^ (ulp_exp a + 53))%Q.
Proof.
  intros Ha. unfold nearest_abs. set (e := ulp_exp a).
  destruct (Qlog2_spec a Ha) as [_ Hhi].
  assert (He : Qlog2 a + 1 ≤ e + 53) by (subst e; unfold ulp_exp; lia).
  assert (Ha53 : (a <= 2 ^ (e + 53))%Q).
  { apply Qlt_le_weak, (Qlt_le_trans _ _ _ Hhi). by apply Qpow2_le. }
  rewrite (Qpow2_plus e 53), (Qmult_comm (2 ^ e)).
  apply Qmult_le_compat_r; [|apply Qlt_le_weak, Qpow2_pos].
  change (2 ^ 53)%Q with (inject_Z (2 ^ 53)). rewrite <- Zle_Qle.
  apply round_half_even_le. change (inject_Z (2 ^ 53)) with (2 ^ 53)%Q.
  apply Qle_trans with (2 ^ (e + 53) * 2 ^ (- e))%Q.
  - apply Qmult_le_compat_r; [done|]. apply Qlt_le_weak, Qpow2_pos.
  - rewrite <- Qpow2_plus. replace (e + 53 + - e) with 53 by lia. apply Qle_refl.
Qed.

(** A normal magnitude is rounded to at least the power of two below
    it. *)
Lemma nearest_abs_ge (b : Q) :
  (0 < b)%Q → -1074 < ulp_exp b → (2 ^ (ulp_exp b + 52) <= nearest_abs b)%Q.
Proof.
  intros Hb Hnormal. unfold nearest_abs. set (e := ulp_exp b) in *.
  destruct (Qlog2_spec b Hb) as [Hlo _].
  assert (He : e + 52 = Qlog2 b) by (subst e; unfold ulp_exp in *; lia).
  rewrite <- He in Hlo. clearbody e.
  rewrite (Qpow2_plus e 52), (Qmult_comm (2 ^ e)).
  apply Qmult_le_compat_r; [|apply Qlt_le_weak, Qpow2_pos].
  change (2 ^ 52)%Q with (inject_Z (2 ^ 52)). rewrite <- Zle_Qle.
  apply round_half_even_ge. change (inject_Z (2 ^ 52)) with (2 ^ 52)%Q.
  apply Qle_trans with (2 ^ (e + 52) * 2 ^ (- e))%Q.
  - rewrite <- Qpow2_plus. replace (e + 52 + - e) with 52 by lia. apply Qle_refl.
  - apply Qmult_le_compat_r; [done|]. apply Qlt_le_weak, Qpow2_pos.
Qed.

Lemma nearest_abs_mono (a b : Q) :
  (0 < a)%Q → (a <= b)%Q → (nearest_abs a <= nearest_abs b)%Q.
Proof.
  intros Ha Hab. pose proof (ulp_exp_mono a b Ha Hab) as He.
  destruct (decide (ulp_exp a = ulp_exp b)) as [Heq|Hne].
  - unfold nearest_abs. rewrite Heq.
    apply Qmult_le_compat_r; [|apply Qlt_le_weak, Qpow2_pos].
    rewrite <- Zle_Qle. apply round_half_even_mono.
    apply Qmult_le_compat_r; [done|]. apply Qlt_le_weak, Qpow2_pos.
  - apply Qle_trans with (2 ^ (ulp_exp a + 53))%Q; [by apply nearest_abs_le|].
    apply Qle_trans with (2 ^ (ulp_exp b + 52))%Q.
    + apply Qpow2_le. lia.
    + apply nearest_abs_ge; [lra|]. unfold ulp_exp in *. lia.
Qed.

Lemma nearest_abs_0 (a : Q) : (a == 0)%Q → (nearest_abs a == 0)%Q.
Proof.
  intros Ha. unfold nearest_abs.
  rewrite (round_half_even_compat _ (inject_Z 0)).
  - rewrite round_half_even_Z. apply Qmult_0_l.
  - apply (Qeq_trans _ (0 * 2 ^ (- ulp_exp a))); [|apply Qmult_0_l].
    by apply Qmult_comp.
Qed.

(** Rounding to the nearest double is monotone. *)
Lemma nearest_mono (a b : Q) : (a <= b)%Q → (nearest a <= nearest b)%Q.
Proof.
  intros Hab. unfold nearest.
  pose proof (nearest_abs_nonneg (Qabs a) (Qabs_nonneg a)) as Hna.
  pose proof (nearest_abs_nonneg (Qabs b) (Qabs_nonneg b)) as Hnb.
  destruct (Qposb a) eqn:Hpa; destruct (Qposb b) eqn:Hpb.
  - apply Qposb_lt in Hpa, Hpb.
    apply nearest_abs_mono; rewrite !Qabs_pos by lra; done.
  - apply Qposb_lt in Hpa. apply Qposb_false in Hpb. lra.
  - lra.
  - apply Qposb_false in Hpa, Hpb. apply Qopp_le_compat.
    destruct (Qlt_le_dec b 0) as [Hb0|Hb0].
    + apply nearest_abs_mono; rewrite !Qabs_neg by lra; lra.
    + rewrite (nearest_abs_0 (Qabs b)); [done|].
      rewrite Qabs_pos by done. lra.
Qed.

Lemma of_Q_eq (p q : Q) : (p == q)%Q → of_Q p = of_Q q.
Proof.
  intros H. unfold of_Q.
  assert (Hn : (nearest p == nearest q)%Q).
  { apply Qle_antisym; apply nearest_mono; rewrite H; apply Qle_refl. }
  by rewrite (Qred_complete _ _ Hn).
Qed.


Lemma of_Q_mono (a b : Q) : (a <= b)%Q → fle (of_Q a) (of_Q b).
Proof.
  intros Hab. unfold of_Q.
  assert (Hr : (Qred (nearest a) <= Qred (nearest b))%Q).
  { by apply Qred_le, nearest_mono. }
  set (ra := Qred (nearest a)) in *.
  set (rb := Qred (nearest b)) in *. clearbody ra rb.
  pose proof (Qpow2_pos 1024) as Hbig.
  destruct (Qle_bool (2 ^ 1024) (Qabs ra)) eqn:Hoa;
    destruct (Qle_bool (2 ^ 1024) (Qabs rb)) eqn:Hob.
  - apply Qle_bool_iff in Hoa, Hob.
    destruct (Qposb ra) eqn:Hpa; destruct (Qposb rb) eqn:Hpb; try done.
    apply Qposb_lt in Hpa. apply Qposb_false in Hpb. lra.
  - apply Qle_bool_iff in Hoa.
    assert (Hb : ¬ (2 ^ 1024 <= Qabs rb)%Q)
      by (rewrite <- Qle_bool_iff; congruence).
    destruct (Qposb ra) eqn:Hpa; [|done]. apply Qposb_lt in Hpa.
    rewrite Qabs_pos in Hoa by lra. apply Hb. rewrite Qabs_pos by lra. lra.
  - apply Qle_bool_iff in Hob.
    assert (Ha : ¬ (2 ^ 1024 <= Qabs ra)%Q)
      by (rewrite <- Qle_bool_iff; congruence).
    destruct (Qposb rb) eqn:Hpb; [done|]. apply Qposb_false in Hpb.
    rewrite Qabs_neg in Hob by lra. apply Ha. rewrite Qabs_neg by lra. lra.
  - done.
Qed.

(** A rational between two numbers that are rounded to finite doubles is
    rounded to a finite double between these. *)
Lemma of_Q_between (lo hi lo' hi' q : Q) :
  of_Q lo = Fin lo' → of_Q hi = Fin hi' → (lo <= q)%Q → (q <= hi)%Q →
  ∃ r, of_Q q = Fin r ∧ (lo' <= r)%Q ∧ (r <= hi')%Q.
Proof.
  intros Hlo Hhi H1 H2.
  pose proof (of_Q_mono lo q H1) as Hle1.
  pose proof (of_Q_mono q hi H2) as Hle2.
  rewrite Hlo in Hle1. rewrite Hhi in Hle2.
  destruct (of_Q q) as [r| | |]; try done. by exists r.
Qed.

(** *** The operations *)

Lemma fdiv_nan_r (x : float) : fdiv x NaN = NaN.
Proof. by destruct x. Qed.

Lemma fdiv_Fin (a b : Q) :
  ¬ (b == 0)%Q → fdiv (Fin a) (Fin b) = of_Q (a / b).
Proof. intros Hb. simpl. by rewrite (proj2 (Qeqb0_false b)). Qed.


Lemma fmul_Fin (a b : Q) : fmul (Fin a) (Fin b) = of_Q (a * b).
Proof. reflexivity. Qed.

Lemma round_Fin (q : Q) (n : nat) :
  round (Fin q) n
  = of_Q (inject_Z (round_half_even (q * inject_Z (10 ^ Z.of_nat n)))
          / inject_Z (10 ^ Z.of_nat n)).
Proof. reflexivity. Qed.


Lemma fdiv_of_nat (k n : nat) :
  n ≠ 0%nat →
  fdiv (of_nat k) (of_nat n)
  = of_Q (inject_Z (Z.of_nat k) / inject_Z (Z.of_nat n)).
Proof.
  intros Hn. apply fdiv_Fin. unfold Qeq. simpl. lia.
Qed.

(** [round(x, ndigits)] is monotone. *)
Lemma round_mono (a b : Q) (n : nat) :
  (a <= b)%Q → fle (round (Fin a) n) (round (Fin b) n).
Proof.
  intros Hab. rewrite !round_Fin. apply of_Q_mono.
  assert (Hp : (0 < inject_Z (10 ^ Z.of_nat n))%Q).
  { change 0%Q with (inject_Z 0). rewrite <- Zlt_Qlt. lia. }
  apply Qmult_le_compat_r; [|by apply Qlt_le_weak, Qinv_lt_0_compat].
  rewrite <- Zle_Qle. apply round_half_even_mono.
  apply Qmult_le_compat_r; [done|]. by apply Qlt_le_weak.
Qed.

(** ** Month-over-month returns, bucket by bucket *)

Lemma Series_div_shift (s : Series) (prev : float) :
  Series_sub_scalar
    (Series_div s (zip s.*1 (prev :: s.*2))) (Fin 1)
  = mom_from prev s.
Proof.
  revert prev. induction s as [|[idx v] s IH]; intros prev; [done|].
  simpl. f_equal. apply IH.
Qed.

Lemma calculate_mom_returns_from (s : Series) :
  calculate_mom_returns s = mom_from NaN s.
Proof. apply Series_div_shift. Qed.

Lemma mom_from_keys (s : Series) (prev : float) :
  (mom_from prev s).*1 = s.*1.
Proof.
  revert prev. induction s as [|[idx v] s IH]; intros prev; simpl; [done|].
  f_equal. apply IH.
Qed.

Lemma mom_from_lookup_0 (s : Series) (prev : float) :
  mom_from prev s !! 0%nat
  = (λ x, (x.1, fsub (fdiv x.2 prev) (Fin 1))) <$> s !! 0%nat.
Proof. by destruct s as [|[idx v] s]. Qed.

Lemma mom_from_lookup_S (s : Series) (prev : float) (i : nat) :
  mom_from prev s !! S i
  = match s !! i, s !! S i with
    | Some p, Some c => Some (c.1, fsub (fdiv c.2 p.2) (Fin 1))
    | _, _ => None
    end.
Proof.
  revert prev i. induction s as [|[idx v] s IH]; intros prev i; [done|].
  destruct i as [|i].
  - simpl. rewrite mom_from_lookup_0. by destruct s as [|[idx' v'] s].
  - simpl. rewrite IH. done.
Qed.

(** The first bucket has no return; every later bucket holds
    [(current / previous) - 1] as the doubles compute it, which is NaN
    as soon as the current or the previous value is NaN. *)
Lemma calculate_mom_returns_lookup (s : Series) (i : nat) :
  calculate_mom_returns s !! i
  = match i with
    | O => (λ x, (x.1, NaN)) <$> s !! 0%nat
    | S j =>
        match s !! j, s !! i with
        | Some p, Some c => Some (c.1, fsub (fdiv c.2 p.2) (Fin 1))
        | _, _ => None
        end
    end.
Proof.
  rewrite calculate_mom_returns_from. destruct i as [|j].
  - rewrite mom_from_lookup_0. destruct (s !! 0%nat) as [[idx v]|]; [|done].
    simpl. by rewrite fdiv_nan_r.
  - apply mom_from_lookup_S.
Qed.

Lemma mom_absent_adjacent (c p : float) :
  isna c = true ∨ isna p = true → fsub (fdiv c p) (Fin 1) = NaN.
Proof.
  intros [H|H]; [destruct c; try done | destruct p; try done].
  by rewrite fdiv_nan_r.
Qed.

(** C2 (evaluation at the failing input): a value of zero followed by a
    value of five.  The second bucket divides by the zero before it and
    the series holds plus infinity there, which is not an absent value
    and which the heatmap passes on as the content of the cell. *)
Theorem C2_mom_returns_division_by_zero :
  calculate_mom_returns [((2020, 1), Fin 0); ((2020, 2), Fin 5)]
  = [((2020, 1), NaN); ((2020, 2), PInf)]
  ∧ isna PInf = false
  ∧ rounded_cell PInf 4 = Some PInf.
Proof. repeat split; reflexivity. Qed.




(** ** Bucket keys, the cache and the table *)

Lemma key_ltb_lt (a b : key) : key_ltb a b = true ↔ key_lt a b.
Proof.
  unfold key_ltb, key_lt.
  rewrite orb_true_iff, andb_true_iff, Z.ltb_lt, Z.eqb_eq, Z.ltb_lt. done.
Qed.

Lemma key_eqb_eq (a b : key) : key_eqb a b = true ↔ a = b.
Proof.
  unfold key_eqb. rewrite andb_true_iff, !Z.eqb_eq.
  destruct a, b; simpl; split; [intros [-> ->]|intros [= -> ->]]; done.
Qed.

Lemma key_lt_irrefl (a : key) : ¬ key_lt a a.
Proof. unfold key_lt. lia. Qed.

Lemma key_lt_trans (a b c : key) : key_lt a b → key_lt b c → key_lt a c.
Proof. unfold key_lt. lia. Qed.

Lemma key_lt_total (a b : key) :
  key_ltb a b = false → key_eqb a b = false → key_lt b a.
Proof.
  unfold key_ltb, key_eqb, key_lt.
  rewrite orb_false_iff, !andb_false_iff, !Z.ltb_ge, !Z.eqb_neq. lia.
Qed.

Lemma elem_of_insert_key (k k' : key) (ks : list key) :
  k' ∈ insert_key k ks ↔ k' = k ∨ k' ∈ ks.
Proof.
  induction ks as [|x ks IH]; simpl.
  - rewrite !elem_of_cons, elem_of_nil. tauto.
  - destruct (key_ltb k x) eqn:Hlt; [by rewrite !elem_of_cons|].
    destruct (key_eqb k x) eqn:Heq.
    + apply key_eqb_eq in Heq as ->. rewrite !elem_of_cons. tauto.
    + rewrite !elem_of_cons, IH. tauto.
Qed.

Lemma insert_key_sorted (k : key) (ks : list key) :
  StronglySorted key_lt ks → StronglySorted key_lt (insert_key k ks).
Proof.
  induction 1 as [|x ks Hs IH Hx]; simpl.
  - repeat constructor.
  - destruct (key_ltb k x) eqn:Hlt.
    + apply key_ltb_lt in Hlt. constructor; [by constructor|].
      constructor; [done|].
      eapply Forall_impl; [exact Hx|]. intros y Hy. by eapply key_lt_trans.
    + destruct (key_eqb k x) eqn:Heq; [by constructor|].
      constructor; [done|].
      apply Forall_forall. intros y Hy.
      apply elem_of_insert_key in Hy as [->|Hy].
      * by apply key_lt_total.
      * by eapply Forall_forall in Hx.
Qed.

Lemma elem_of_group_keys (k : key) (ks : list key) :
  k ∈ group_keys ks ↔ k ∈ ks.
Proof.
  induction ks as [|x ks IH]; simpl; [done|].
  rewrite elem_of_insert_key, IH, elem_of_cons. tauto.
Qed.

Lemma group_keys_sorted (ks : list key) : StronglySorted key_lt (group_keys ks).
Proof.
  induction ks as [|x ks IH]; simpl; [constructor|].
  by apply insert_key_sorted.
Qed.

Lemma sorted_NoDup (ks : list key) : StronglySorted key_lt ks → NoDup ks.
Proof.
  induction 1 as [|x ks Hs IH Hx]; constructor; [|done].
  intros Hin. eapply Forall_forall in Hx; [|exact Hin].
  by apply key_lt_irrefl in Hx.
Qed.

Lemma string_length_append (s1 s2 : string) :
  String.length (s1 +:+ s2) = (String.length s1 + String.length s2)%nat.
Proof.
  induction s1 as [|a s1 IH]; [done|].
  change (String a s1 +:+ s2) with (String a (s1 +:+ s2)). simpl. by rewrite IH.
Qed.
Lemma append_inj_l (s1 s2 t : string) : s1 +:+ t = s2 +:+ t → s1 = s2.
Proof.
  revert s2. induction s1 as [|a s1 IH]; intros [|b s2] H.
  - done.
  - apply (f_equal String.length) in H.
    rewrite !string_length_append in H. simpl in H. lia.
  - apply (f_equal String.length) in H.
    rewrite !string_length_append in H. simpl in H. lia.
  - change (String a (s1 +:+ t) = String b (s2 +:+ t)) in H.
    injection H as -> H. f_equal. by apply IH.
Qed.

Lemma _get_cache_key_inj (n1 n2 op : string) :
  _get_cache_key n1 op [] = _get_cache_key n2 op [] → n1 = n2.
Proof. unfold _get_cache_key. apply append_inj_l. Qed.

Lemma cache_ok_empty data : cache_ok data ∅.
Proof. intros k s H. by rewrite lookup_empty in H. Qed.

(** A call of [calculate_monthly_average] on a consistent cache returns
    what a fresh computation returns, and leaves the cache consistent. *)
Lemma calculate_monthly_average_spec data c name :
  cache_ok data c →
  ∃ c', calculate_monthly_average data name c
        = (match select data name with
           | inl e => inl e
           | inr df =>
               inr (groupby_mean ((λ r, (year_month r.1, r.2))
                                    <$> assign_Month name (assign_Year name df)))
           end, c')
        ∧ cache_ok data c'.
Proof.
  intros Hc. unfold calculate_monthly_average.
  destruct (c !! _) as [s|] eqn:Hs.
  - exists c. split; [|done].
    destruct (Hc _ _ Hs) as (n & df & Hk & Hsel & ->).
    apply _get_cache_key_inj in Hk as <-. by rewrite Hsel.
  - destruct (select data name) as [e|df] eqn:Hsel.
    + by exists c.
    + eexists. split; [done|]. intros k s Hk.
      destruct (decide (_get_cache_key name "monthly_avg" [] = k)) as [<-|Hne].
      * rewrite lookup_insert_eq in Hk. injection Hk as <-. by exists name, df.
      * rewrite lookup_insert_ne in Hk by done. by apply Hc.
Qed.

Lemma NoDup_fst_functional {V} (l : list (string * V)) x y1 y2 :
  NoDup l.*1 → (x, y1) ∈ l → (x, y2) ∈ l → y1 = y2.
Proof.
  intros Hnd H1 H2.
  pose proof (elem_of_list_to_map_1 (M := gmap string) l x y1 Hnd H1) as E1.
  pose proof (elem_of_list_to_map_1 (M := gmap string) l x y2 Hnd H2) as E2.
  congruence.
Qed.

Lemma assign_Year_fst (col : string) (df : list (date * float)) :
  (assign_Year col df).*1 = df.*1.
Proof.
  unfold assign_Year. case_bool_decide; [|done].
  rewrite <- list_fmap_compose. by apply list_fmap_ext.
Qed.

Lemma assign_Month_fst (col : string) (df : list (date * float)) :
  (assign_Month col df).*1 = df.*1.
Proof.
  unfold assign_Month. case_bool_decide; [|done].
  rewrite <- list_fmap_compose. by apply list_fmap_ext.
Qed.

Lemma zip_fst_snd_eq {A B} (l : list (A * B)) (xs : list A) :
  l.*1 = xs → zip xs l.*2 = l.
Proof. intros <-. apply zip_fst_snd. Qed.

(** The rows the aggregator averages are the dates zipped with the
    averaged column. *)
Lemma zip_averaged_column data name vs :
  length vs = length (DATE data) →
  zip (DATE data) (averaged_column data name vs)
  = assign_Month name (assign_Year name (zip (DATE data) vs)).
Proof.
  intros Hlen. unfold averaged_column. apply zip_fst_snd_eq.
  rewrite assign_Month_fst, assign_Year_fst. apply fst_zip. lia.
Qed.

Lemma zip_ranked_column data name vs :
  length vs = length (DATE data) →
  zip (DATE data) (ranked_column data name vs)
  = assign_Year name (zip (DATE data) vs).
Proof.
  intros Hlen. unfold ranked_column. apply zip_fst_snd_eq.
  rewrite assign_Year_fst. apply fst_zip. lia.
Qed.

Lemma averaged_column_length data name vs :
  length vs = length (DATE data) →
  length (averaged_column data name vs) = length (DATE data).
Proof.
  intros Hlen. unfold averaged_column.
  rewrite length_fmap, <- (length_fmap fst).
  rewrite assign_Month_fst, assign_Year_fst, fst_zip by lia. done.
Qed.


Lemma ranked_column_other data name vs :
  name ≠ "Year"%string → length vs = length (DATE data) →
  ranked_column data name vs = vs.
Proof.
  intros Hy Hlen. unfold ranked_column, assign_Year.
  rewrite bool_decide_eq_false_2 by done. apply snd_zip. lia.
Qed.

Lemma select_index data name vs :
  NoDup (columns data) → (name, vs) ∈ index_columns data →
  select data name = inr (zip (DATE data) vs).
Proof.
  intros Hnd Hin. unfold select. apply NoDup_cons in Hnd as [Hdate Hnd].
  rewrite bool_decide_eq_false_2.
  2:{ intros ->. apply Hdate. apply list_elem_of_fmap. by exists ("DATE"%string, vs). }
  destruct (list_find _ _) as [[i [n vs']]|] eqn:Hf.
  - apply list_find_Some in Hf as (Hi & Hn & _). simpl in Hn. subst n.
    apply list_elem_of_lookup_2 in Hi.
    by rewrite (NoDup_fst_functional _ _ _ _ Hnd Hi Hin).
  - apply list_find_None in Hf. eapply Forall_forall in Hf; [|exact Hin]. done.
Qed.

(** ** The monthly aggregator *)

Lemma groupby_mean_keys (rows : list (key * float)) :
  (groupby_mean rows).*1 = group_keys rows.*1.
Proof.
  unfold groupby_mean. rewrite <- list_fmap_compose.
  rewrite <- (list_fmap_id (group_keys rows.*1)) at 2.
  by apply list_fmap_ext.
Qed.



Lemma table_keys (data : DataFrame) (vs : list float) :
  length vs = length (DATE data) →
  ((λ r, (year_month r.1, r.2)) <$> zip (DATE data) vs).*1
  = year_month <$> DATE data.
Proof.
  intros Hlen. rewrite <- list_fmap_compose.
  rewrite <- (fst_zip (DATE data) vs) at 2 by lia.
  rewrite <- list_fmap_compose. by apply list_fmap_ext.
Qed.







Lemma column_length data name vs :
  wf_table data → (name, vs) ∈ index_columns data →
  length vs = length (DATE data).
Proof.
  intros [_ Hlen] Hin. eapply Forall_forall in Hlen; [|exact Hin]. done.
Qed.

(** On a column of a loaded table the aggregator returns the monthly
    series of the averaged column. *)
Lemma calculate_monthly_average_index data c name vs :
  wf_table data → cache_ok data c → (name, vs) ∈ index_columns data →
  ∃ c', calculate_monthly_average data name c
        = (inr (monthly_avg_of data name vs), c')
      ∧ cache_ok data c'.
Proof.
  intros Hwf Hc Hin.
  destruct (calculate_monthly_average_spec data c name Hc) as (c' & Hrun & Hc').
  rewrite (select_index _ _ _ (proj1 Hwf) Hin) in Hrun. exists c'.
  split; [|done]. unfold monthly_avg_of, monthly_series.
  by rewrite zip_averaged_column by (by eapply column_length).
Qed.

Lemma monthly_series_keys data vs (k : key) :
  length vs = length (DATE data) →
  k ∈ (monthly_series data vs).*1 ↔ ∃ d, d ∈ DATE data ∧ year_month d = k.
Proof.
  intros Hlen. unfold monthly_series.
  rewrite groupby_mean_keys, table_keys by done.
  rewrite elem_of_group_keys, list_elem_of_fmap.
  split; [intros (d & -> & Hd)|intros (d & Hd & <-)]; by exists d.
Qed.

Lemma monthly_series_sorted data vs :
  StronglySorted key_lt (monthly_series data vs).*1.
Proof.
  unfold monthly_series. rewrite groupby_mean_keys. apply group_keys_sorted.
Qed.




(** ** The year -> month -> value dictionaries *)

Lemma to_int_not_nil (z : Z) :
  Z.to_int z ≠ Decimal.Pos Decimal.Nil ∧ Z.to_int z ≠ Decimal.Neg Decimal.Nil.
Proof.
  destruct z as [|p|p]; simpl; split; try discriminate;
    intros [= H]; by apply DecimalPos.Unsigned.to_uint_nonnil in H.
Qed.

Lemma str_inj (a b : Z) : str a = str b → a = b.
Proof.
  unfold str. intros H. apply (f_equal NilZero.int_of_string) in H.
  rewrite !NilZero.isi in H by apply to_int_not_nil.
  injection H as H. by apply DecimalZ.to_int_inj.
Qed.

Lemma cell_set_cell_eq {V} (m : Matrix V) (idx : key) (v : option V) :
  cell (set_cell m (str idx.1) (str idx.2) v) idx = Some v.
Proof.
  unfold cell, set_cell. rewrite lookup_alter_eq.
  destruct (m !! str idx.1) as [row|] eqn:Hrow.
  - rewrite Hrow. simpl. apply lookup_insert_eq.
  - rewrite lookup_insert_eq. simpl. apply lookup_insert_eq.
Qed.

Lemma cell_set_cell_ne {V} (m : Matrix V) (idx idx' : key) (v : option V) :
  idx ≠ idx' →
  cell (set_cell m (str idx.1) (str idx.2) v) idx' = cell m idx'.
Proof.
  intros Hne. unfold cell, set_cell.
  destruct (decide (str idx.1 = str idx'.1)) as [Hy|Hy].
  - rewrite <- Hy, lookup_alter_eq.
    assert (Hm : str idx.2 ≠ str idx'.2).
    { intros Hm. apply Hne. apply str_inj in Hy, Hm.
      destruct idx, idx'; simpl in *; congruence. }
    destruct (m !! str idx.1) as [row|] eqn:Hrow.
    + rewrite Hrow. simpl. by rewrite lookup_insert_ne.
    + rewrite lookup_insert_eq. simpl. by rewrite lookup_insert_ne.
  - rewrite lookup_alter_ne by done.
    destruct (m !! str idx.1) as [row|] eqn:Hrow; [done|].
    by rewrite lookup_insert_ne.
Qed.

(** The loop that fills a matrix from a list of items. *)
Lemma fill_cell_notin {A V} (f : A → key) (g : A → option V)
    (l : list A) (m : Matrix V) (idx : key) :
  idx ∉ f <$> l →
  cell (foldl (λ m a, set_cell m (str (f a).1) (str (f a).2) (g a)) m l) idx
  = cell m idx.
Proof.
  revert m. induction l as [|a l IH]; intros m Hnin; [done|].
  rewrite fmap_cons, not_elem_of_cons in Hnin. destruct Hnin as [Hne Hnin].
  simpl. rewrite IH by done. by apply cell_set_cell_ne.
Qed.

Lemma fill_cell_lookup {A V} (f : A → key) (g : A → option V)
    (l : list A) (m : Matrix V) (a : A) :
  NoDup (f <$> l) → a ∈ l →
  cell (foldl (λ m a, set_cell m (str (f a).1) (str (f a).2) (g a)) m l) (f a)
  = Some (g a).
Proof.
  revert m. induction l as [|b l IH]; intros m Hnd Hin.
  - by apply elem_of_nil in Hin.
  - rewrite fmap_cons in Hnd. apply NoDup_cons in Hnd as [Hb Hnd].
    apply elem_of_cons in Hin as [->|Hin]; simpl.
    + rewrite fill_cell_notin by done. apply cell_set_cell_eq.
    + by apply IH.
Qed.

Lemma foldl_ext {A B} (f g : B → A → B) (l : list A) (b : B) :
  (∀ b a, f b a = g b a) → foldl f b l = foldl g b l.
Proof.
  intros H. revert b. induction l as [|a l IH]; intros b; [done|].
  simpl. by rewrite H, IH.
Qed.

Lemma enumerate_snd {A} (l : list A) : (enumerate l).*2 = l.
Proof. unfold enumerate. apply snd_zip. by rewrite length_seq. Qed.

Lemma elem_of_enumerate {A} (l : list A) (i : nat) (x : A) :
  l !! i = Some x → (i, x) ∈ enumerate l.
Proof.
  intros Hi. unfold enumerate. apply list_elem_of_lookup. exists i.
  apply lookup_zip_with_Some. exists i, x. split; [done|]. split; [|done].
  apply lookup_seq. split; [done|]. by apply lookup_lt_Some in Hi.
Qed.

(** ** Unknown index, unknown period *)

Lemma in_columns_false data name :
  name ∉ columns data → in_columns data name = false.
Proof. intros H. unfold in_columns. by apply bool_decide_eq_false_2. Qed.

Lemma in_columns_true data name :
  name ∈ columns data → in_columns data name = true.
Proof. intros H. unfold in_columns. by apply bool_decide_eq_true_2. Qed.

Lemma index_columns_in_columns data name vs :
  (name, vs) ∈ index_columns data → name ∈ columns data.
Proof.
  intros H. unfold columns. apply elem_of_cons. right.
  apply list_elem_of_fmap. by exists (name, vs).
Qed.

Lemma messages_differ (name p : string) :
  index_not_found name ≠ invalid_forward_period p.
Proof. unfold index_not_found, invalid_forward_period. discriminate. Qed.

(** C5: with an index name that is no column of the table, each of the
    seven operations raises the error of the unknown index,
    [ValueError("Index '<name>' not found in data")], returns nothing and
    leaves the cache as it was. *)
Theorem C5_unknown_index data (c : gmap string Series) name :
  name ∉ columns data →
  let unknown_index {A} : (exn + A) * gmap string Series :=
    (inl (ValueError (index_not_found name)), c) in
  generate_heatmap_matrix data name c = unknown_index
  ∧ (∀ forward_period,
       calculate_forward_returns data name forward_period c = unknown_index)
  ∧ generate_monthly_price_matrix data name c = unknown_index
  ∧ calculate_avg_monthly_profits_3y data name c = unknown_index
  ∧ calculate_rank_percentile_4y data name c = unknown_index
  ∧ calculate_inverse_rank_percentile data name c = unknown_index
  ∧ calculate_monthly_rank_position data name c = unknown_index.
Proof.
  intros Hname%in_columns_false. simpl.
  unfold generate_heatmap_matrix, calculate_forward_returns,
    generate_monthly_price_matrix, calculate_avg_monthly_profits_3y,
    calculate_inverse_rank_percentile, calculate_monthly_rank_position.
  unfold mbind, M_bind. unfold calculate_rank_percentile_4y.
  rewrite Hname. simpl. repeat split.
Qed.

Lemma period_map_Some (p : string) (h : nat) :
  period_map !! p = Some h
  ↔ (p, h) ∈ [("1M", 1%nat); ("3M", 3%nat); ("6M", 6%nat); ("1Y", 12%nat);
              ("2Y", 24%nat); ("3Y", 36%nat); ("4Y", 48%nat)]%string.
Proof.
  unfold period_map. symmetry. apply elem_of_list_to_map.
  apply (bool_decide_unpack _). by vm_compute.
Qed.

Lemma calculate_monthly_average_not_ValueError data name c msg :
  (calculate_monthly_average data name c).1 ≠ inl (ValueError msg).
Proof.
  unfold calculate_monthly_average. destruct (c !! _); [done|].
  unfold select. case_bool_decide; [done|].
  by destruct (list_find _ _) as [[? [? ?]]|].
Qed.

(** C6 as stated fails when the index name is unknown too: the index is
    checked first and its error is the one raised. *)
Lemma C6_counterexample_unknown_index :
  let data := example_table in
  period_map !! "5Y"%string = None
  ∧ calculate_forward_returns data "ZZZ" "5Y" ∅
    = (inl (ValueError "Index 'ZZZ' not found in data"), ∅)
  ∧ (calculate_forward_returns data "ZZZ" "5Y" ∅).1
    ≠ inl (ValueError (invalid_forward_period "5Y")).
Proof. split; [|split]; [reflexivity|reflexivity|discriminate]. Qed.

(** C6 (amended): for an index name that is a column of the table, the
    forward-return operation raises the error of the invalid period,
    [ValueError("Invalid forward period: <token>")], for every token
    that is not one of 1M, 3M, 6M, 1Y, 2Y, 3Y, 4Y (which stand for 1, 3,
    6, 12, 24, 36 and 48 months); and for a token that is one of them it
    never raises that error, whatever the index name. *)
Theorem C6_invalid_period data (c : gmap string Series) name p :
  name ∈ columns data →
  (p ∉ ["1M"; "3M"; "6M"; "1Y"; "2Y"; "3Y"; "4Y"]%string →
     calculate_forward_returns data name p c
     = (inl (ValueError (invalid_forward_period p)), c))
  ∧ (p ∈ ["1M"; "3M"; "6M"; "1Y"; "2Y"; "3Y"; "4Y"]%string →
     ∀ name' c',
       (calculate_forward_returns data name' p c').1
       ≠ inl (ValueError (invalid_forward_period p)))
  ∧ (∀ h, period_map !! p = Some h
       ↔ (p, h) ∈ [("1M", 1%nat); ("3M", 3%nat); ("6M", 6%nat);
                   ("1Y", 12%nat); ("2Y", 24%nat); ("3Y", 36%nat);
                   ("4Y", 48%nat)]%string).
Proof.
  intros Hname%in_columns_true. split; [|split].
  - intros Hp. unfold calculate_forward_returns. rewrite Hname. simpl.
    destruct (period_map !! p) as [h|] eqn:Hh; [|done].
    exfalso. apply Hp. apply period_map_Some in Hh.
    apply (list_elem_of_fmap_2 fst) in Hh. exact Hh.
  - intros Hp name' c'. unfold calculate_forward_returns.
    destruct (in_columns data name'); simpl.
    + destruct (period_map !! p) as [h|] eqn:Hh.
      * unfold mbind, M_bind.
        pose proof (calculate_monthly_average_not_ValueError data name' c'
                      (invalid_forward_period p)) as Hne.
        destruct (calculate_monthly_average data name' c') as [[e|s] c''];
          [|discriminate].
        simpl in *. intros [= ->]. by apply Hne.
      * exfalso. revert Hh.
        repeat (apply elem_of_cons in Hp as [->|Hp]; [done|]).
        by apply elem_of_nil in Hp.
    + intros H. apply (messages_differ name' p). congruence.
  - apply period_map_Some.
Qed.

Lemma wf_example_table : wf_table example_table.
Proof.
  split.
  - apply (bool_decide_unpack _). by vm_compute.
  - repeat constructor.
Qed.

(** ** Forward returns *)

Lemma monthly_avg_of_sorted data name vs :
  StronglySorted key_lt (monthly_avg_of data name vs).*1.
Proof. apply monthly_series_sorted. Qed.




(** ** Witnesses on the example table *)

Lemma C5_unknown_index_witness :
  calculate_rank_percentile_4y example_table "C" ∅
  = (inl (ValueError "Index 'C' not found in data"), ∅)
  ∧ calculate_forward_returns example_table "C" "1M" ∅
    = (inl (ValueError "Index 'C' not found in data"), ∅).
Proof.
  assert (Hno : "C"%string ∉ columns example_table).
  { apply (bool_decide_unpack _). by vm_compute. }
  destruct (C5_unknown_index example_table ∅ "C" Hno)
    as (_ & Hfwd & _ & _ & Hrank & _).
  split; [exact Hrank|exact (Hfwd "1M"%string)].
Defined.

Lemma C6_invalid_period_witness :
  calculate_forward_returns example_table "A" "5Y" ∅
  = (inl (ValueError "Invalid forward period: 5Y"), ∅).
Proof.
  assert (Hcol : "A"%string ∈ columns example_table).
  { apply (bool_decide_unpack _). by vm_compute. }
  apply (proj1 (C6_invalid_period example_table ∅ "A" "5Y" Hcol)).
  apply (bool_decide_unpack _). by vm_compute.
Defined.


(** ** Monthly rank position *)

Lemma dict_set_fresh {V} (d : list (string * V)) (k : string) (v : V) :
  k ∉ d.*1 → dict_set d k v = d ++ [(k, v)].
Proof.
  induction d as [|[k' v'] d IH]; intros Hk; [done|].
  rewrite fmap_cons, not_elem_of_cons in Hk. destruct Hk as [Hne Hk].
  simpl. rewrite bool_decide_eq_false_2 by done. by rewrite IH.
Qed.

Lemma DATE_not_index data name vs :
  NoDup (columns data) → (name, vs) ∈ index_columns data →
  name ≠ "DATE"%string.
Proof.
  intros Hnd Hin ->. apply NoDup_cons in Hnd as [Hdate _]. apply Hdate.
  apply list_elem_of_fmap. by exists ("DATE"%string, vs).
Qed.

Lemma collect_returns_index data acc c n vs :
  wf_table data → cache_ok data c → (n, vs) ∈ index_columns data →
  n ∉ acc.*1 →
  ∃ c', collect_returns data acc n c
        = (inr (acc ++ [(n, mom_returns_of data n vs)]), c')
      ∧ cache_ok data c'.
Proof.
  intros Hwf Hc Hin Hfresh.
  destruct (calculate_monthly_average_index data c n vs Hwf Hc Hin)
    as (c1 & Hrun & Hc1).
  exists c1. split; [|done]. unfold collect_returns.
  rewrite bool_decide_eq_false_2
    by (eapply DATE_not_index; [apply Hwf|exact Hin]).
  unfold try_except, mbind, M_bind. rewrite Hrun. simpl.
  by rewrite dict_set_fresh.
Qed.

(** The loop over the columns collects the return series of every index
    column, in column order. *)
Lemma all_indices_returns_spec data (cols : list (string * list float))
    (acc : list (string * Series)) (c : gmap string Series) :
  wf_table data → cache_ok data c →
  (∀ x, x ∈ cols → x ∈ index_columns data) →
  NoDup (acc.*1 ++ cols.*1) →
  ∃ c',
    for_each cols.*1 (collect_returns data) acc c
    = (inr (acc ++ ((λ x, (x.1, mom_returns_of data x.1 x.2)) <$> cols)), c')
    ∧ cache_ok data c'.
Proof.
  intros Hwf. revert acc c.
  induction cols as [|[n vs] cols IH]; intros acc c Hc Hsub Hnd.
  - exists c. by rewrite app_nil_r.
  - assert (Hin : (n, vs) ∈ index_columns data).
    { apply Hsub, elem_of_cons. by left. }
    destruct (collect_returns_index data acc c n vs Hwf Hc Hin)
      as (c1 & Hstep & Hc1).
    { rewrite fmap_cons in Hnd. apply NoDup_app in Hnd as (_ & Hdisj & _).
      intros Hacc. apply (Hdisj _ Hacc), elem_of_cons. by left. }
    destruct (IH (acc ++ [(n, mom_returns_of data n vs)]) c1 Hc1) as (c' & Hfor & Hc').
    + intros x Hx. apply Hsub, elem_of_cons. by right.
    + rewrite fmap_app, <- app_assoc. exact Hnd.
    + exists c'. split; [|done]. rewrite fmap_cons. cbn [for_each fst].
      unfold mbind, M_bind. rewrite Hstep, Hfor. by rewrite <- app_assoc.
Qed.

Lemma same_month_returns_from data name idx
    (cols : list (string * list float)) (acc : list float) :
  foldl (λ same_month_returns '(col, col_returns),
           if bool_decide (col = name) then same_month_returns
           else
             match loc col_returns idx with
             | Some col_value =>
                 if negb (isna col_value) then same_month_returns ++ [col_value]
                 else same_month_returns
             | None => same_month_returns
             end)
        acc ((λ x, (x.1, mom_returns_of data x.1 x.2)) <$> cols)
  = acc ++ omap (λ col : string * list float,
                   if bool_decide (col.1 = name) then None
                   else
                     match loc (mom_returns_of data col.1 col.2) idx with
                     | Some w => if isna w then None else Some w
                     | None => None
                     end) cols.
Proof.
  revert acc. induction cols as [|[n vs] cols IH]; intros acc.
  - by rewrite app_nil_r.
  - rewrite fmap_cons. cbn [foldl fst snd]. rewrite IH. simpl.
    case_bool_decide; [done|].
    destruct (loc (mom_returns_of data n vs) idx) as [w|]; [|done].
    destruct (isna w); [done|]. simpl. by rewrite <- app_assoc.
Qed.

Lemma same_month_returns_peers data name idx :
  same_month_returns name
    ((λ x, (x.1, mom_returns_of data x.1 x.2)) <$> index_columns data) idx
  = peer_returns data name idx.
Proof. apply same_month_returns_from. Qed.




Lemma mom_series_NoDup data vs : NoDup (mom_series data vs).*1.
Proof.
  unfold mom_series. rewrite calculate_mom_returns_from, mom_from_keys.
  apply sorted_NoDup, monthly_series_sorted.
Qed.

Lemma mom_returns_of_NoDup data name vs :
  NoDup (mom_returns_of data name vs).*1.
Proof. apply mom_series_NoDup. Qed.

Lemma count_gt_le (rs : list float) (x : float) :
  (count_gt rs x ≤ length rs)%nat.
Proof. unfold count_gt. apply length_filter. Qed.


(** What [calculate_monthly_rank_position] writes in each cell. *)
Lemma rank_position_cells data c name vs :
  wf_table data → cache_ok data c → (name, vs) ∈ index_columns data →
  ∃ matrix c',
    calculate_monthly_rank_position data name c = (inr matrix, c')
    ∧ ∀ idx value, (idx, value) ∈ mom_returns_of data name vs →
        cell matrix idx
        = Some (if isna value then None
                else if (0 <? length (peer_returns data name idx))%nat
                     then Some (Z.of_nat
                                  (count_gt (peer_returns data name idx) value
                                   + 1))
                     else None).
Proof.
  intros Hwf Hc Hin.
  destruct (calculate_monthly_average_index data c name vs Hwf Hc Hin)
    as (c1 & Hrun & Hc1).
  assert (Hnames : NoDup ((@nil (string * Series)).*1
                          ++ (index_columns data).*1)).
  { destruct Hwf as [Hnd _]. by apply NoDup_cons in Hnd as [_ Hnd]. }
  destruct (all_indices_returns_spec data (index_columns data) [] c1 Hwf Hc1)
    as (c2 & Hfor & _); [done|exact Hnames|].
  unfold calculate_monthly_rank_position.
  rewrite (in_columns_true _ _ (index_columns_in_columns _ _ _ Hin)).
  simpl. unfold mbind at 1, M_bind at 1. rewrite Hrun.
  unfold mbind at 1, M_bind at 1. unfold columns. cbn [for_each].
  unfold mbind at 1, M_bind at 1.
  unfold collect_returns at 1. rewrite bool_decide_eq_true_2 by done.
  cbn [mret M_ret]. rewrite Hfor. simpl.
  eexists _, c2. split; [reflexivity|].
  intros idx value Hidx.
  rewrite (foldl_ext _
    (λ m a, set_cell m (str (a.1).1) (str (a.1).2)
              (if isna a.2 then None
               else if (0 <? length (peer_returns data name a.1))%nat
                    then Some (Z.of_nat
                                 (count_gt (peer_returns data name a.1) a.2 + 1))
                    else None))).
  - apply (fill_cell_lookup fst
             (λ a, if isna a.2 then None
                   else if (0 <? length (peer_returns data name a.1))%nat
                        then Some (Z.of_nat
                                     (count_gt (peer_returns data name a.1) a.2
                                      + 1))
                        else None) _ _ (idx, value)).
    + apply mom_returns_of_NoDup.
    + exact Hidx.
  - intros m [k v]. simpl. destruct (isna v); [done|].
    rewrite same_month_returns_peers. by destruct (0 <? _)%nat.
Qed.

(** The returns are compared as the doubles they are.  In the table
    [near_tie_table] A and B both lose five sixths in February as exact
    numbers; the two doubles [(1 / 3) / 2 - 1] and [(5 / 3) / 10 - 1]
    differ in the last place, and A is ranked 2 and B is ranked 1. *)
Lemma near_tie_ranks :
  (calculate_monthly_average near_tie_table "A" ∅).1
  = inr [((2020, 1), Fin 2); ((2020, 2), fdiv (Fin 1) (Fin 3))]
  ∧ (calculate_monthly_average near_tie_table "B" ∅).1
    = inr [((2020, 1), Fin 10); ((2020, 2), fdiv (Fin 5) (Fin 3))]
  ∧ sum_map id (λ m, cell m (2020, 2))
      (calculate_monthly_rank_position near_tie_table "A" ∅).1
    = inr (Some (Some 2))
  ∧ sum_map id (λ m, cell m (2020, 2))
      (calculate_monthly_rank_position near_tie_table "B" ∅).1
    = inr (Some (Some 1)).
Proof. repeat split; by vm_compute. Qed.



(** ** Rank percentile over four years *)

Lemma table_years (data : DataFrame) (vs : list float) :
  length vs = length (DATE data) →
  (λ r : date * float, year r.1) <$> zip (DATE data) vs = year <$> DATE data.
Proof.
  intros Hlen. rewrite <- (fst_zip (DATE data) vs) at 2 by lia.
  by rewrite <- list_fmap_compose.
Qed.

Lemma omap_cons_match {A B} (f : A → option B) (x : A) (l : list A) :
  omap f (x :: l)
  = match f x with Some y => y :: omap f l | None => omap f l end.
Proof. done. Qed.

Lemma append_column_return_index data acc n vs :
  wf_table data → (n, vs) ∈ index_columns data →
  append_column_return data
    ((λ y, y - 4) <$> max_year (year <$> DATE data)) acc n
  = match comparable_return_of data n vs with
    | Some r => acc ++ [r]
    | None => acc
    end.
Proof.
  intros Hwf Hin. unfold append_column_return.
  rewrite bool_decide_eq_false_2
    by (eapply DATE_not_index; [apply Hwf|exact Hin]).
  rewrite (select_index _ _ _ (proj1 Hwf) Hin). lazy zeta.
  rewrite <- zip_ranked_column by (by eapply column_length).
  unfold comparable_return_of, comparable_return, window_values,
    cumulative_return. lazy zeta.
  by destruct (2 <=? _)%nat.
Qed.

(** The returns the loop collects: one for each comparable index column,
    in column order. *)
Lemma all_returns_spec data (cols : list (string * list float))
    (acc : list float) :
  wf_table data → (∀ x, x ∈ cols → x ∈ index_columns data) →
  foldl (append_column_return data
           ((λ y, y - 4) <$> max_year (year <$> DATE data))) acc cols.*1
  = acc ++ omap (λ col, comparable_return_of data col.1 col.2) cols.
Proof.
  intros Hwf. revert acc.
  induction cols as [|[n vs] cols IH]; intros acc Hsub.
  - by rewrite app_nil_r.
  - assert (Hin : (n, vs) ∈ index_columns data).
    { apply Hsub, elem_of_cons. by left. }
    rewrite fmap_cons. cbn [foldl fst]. rewrite IH.
    2:{ intros x Hx. apply Hsub, elem_of_cons. by right. }
    rewrite (append_column_return_index _ _ _ vs) by done.
    rewrite omap_cons_match. cbn [fst snd].
    destruct (comparable_return_of data n vs); [|done].
    by rewrite <- app_assoc.
Qed.

Lemma count_lt_cons (r : float) (rs : list float) (x : float) :
  count_lt (r :: rs) x
  = ((if fltb r x then 1 else 0) + count_lt rs x)%nat.
Proof.
  unfold count_lt. rewrite filter_cons.
  destruct (fltb r x); [by rewrite decide_True|by rewrite decide_False].
Qed.

(** Among the collected returns the target's own is never counted as
    smaller, and it counts once in their number. *)
Lemma all_returns_peers data name vs (cols : list (string * list float)) r :
  NoDup cols.*1 → (name, vs) ∈ cols →
  comparable_return_of data name vs = Some r →
  count_lt (omap (λ col, comparable_return_of data col.1 col.2) cols) r
  = count_lt (omap (λ col : string * list float,
                      if bool_decide (col.1 = name) then None
                      else comparable_return_of data col.1 col.2) cols) r
  ∧ length (omap (λ col, comparable_return_of data col.1 col.2) cols)
    = (length (omap (λ col : string * list float,
                       if bool_decide (col.1 = name) then None
                       else comparable_return_of data col.1 col.2) cols)
       + 1)%nat.
Proof.
  intros Hnd Hin Hr.
  assert (Hout : ∀ l : list (string * list float), name ∉ l.*1 →
    omap (λ col : string * list float,
            if bool_decide (col.1 = name) then None
            else comparable_return_of data col.1 col.2) l
    = omap (λ col, comparable_return_of data col.1 col.2) l).
  { intros l Hl. induction l as [|[n' vs'] l IHl]; [done|].
    rewrite fmap_cons, not_elem_of_cons in Hl. destruct Hl as [Hne Hl].
    rewrite !omap_cons_match. cbn [fst snd].
    rewrite bool_decide_eq_false_2 by done. by rewrite IHl. }
  induction cols as [|[n' vs'] cols IH]; [by apply elem_of_nil in Hin|].
  rewrite fmap_cons in Hnd. apply NoDup_cons in Hnd as [Hn' Hnd].
  rewrite !omap_cons_match. cbn [fst snd].
  apply elem_of_cons in Hin as [[= <- <-]|Hin].
  - rewrite bool_decide_eq_true_2 by done. rewrite Hr, Hout by done.
    rewrite count_lt_cons, fltb_irrefl. split; [done|]. simpl. lia.
  - destruct (IH Hnd Hin) as [Hcount Hlen].
    rewrite bool_decide_eq_false_2.
    2:{ intros ->. apply Hn'. apply list_elem_of_fmap. by exists (name, vs). }
    destruct (comparable_return_of data n' vs') as [r'|]; [|done]. split.
    + by rewrite !count_lt_cons, Hcount.
    + simpl. by rewrite Hlen.
Qed.

Lemma assign_Year_years (col : string) (df : list (date * float)) :
  (λ r : date * float, year r.1) <$> assign_Year col df
  = (λ r : date * float, year r.1) <$> df.
Proof.
  unfold assign_Year. case_bool_decide; [|done].
  rewrite <- list_fmap_compose. by apply list_fmap_ext.
Qed.

(** What [calculate_rank_percentile_4y] returns for a column of a loaded
    table. *)
Lemma rank_percentile_spec data (c : gmap string Series) name vs :
  wf_table data → (name, vs) ∈ index_columns data →
  let values := window_values data (ranked_column data name vs) in
  let peers := peer_cumulative_returns data name in
  calculate_rank_percentile_4y data name c
  = (inr (if (length values <? 2)%nat then None
          else Some (percentile (count_lt peers (cumulative_return values))
                       (length peers + 1))), c).
Proof.
  intros Hwf Hin values peers.
  pose proof (column_length _ _ _ Hwf Hin) as Hlen.
  assert (Hnames : NoDup (index_columns data).*1).
  { destruct Hwf as [Hnd _]. by apply NoDup_cons in Hnd as [_ Hnd]. }
  assert (Hall :
    foldl (append_column_return data
             ((λ y, y - 4) <$> max_year (year <$> DATE data))) []
          (columns data)
    = omap (λ col, comparable_return_of data col.1 col.2)
        (index_columns data)).
  { unfold columns. cbn [foldl]. unfold append_column_return at 2.
    rewrite bool_decide_eq_true_2 by done.
    by rewrite (all_returns_spec data (index_columns data) [] Hwf). }
  unfold calculate_rank_percentile_4y.
  rewrite (in_columns_true _ _ (index_columns_in_columns _ _ _ Hin)).
  rewrite (select_index _ _ _ (proj1 Hwf) Hin). cbn [negb]. lazy zeta.
  rewrite assign_Year_years, table_years, Hall by done.
  rewrite <- zip_ranked_column by done.
  fold (window_values data (ranked_column data name vs)). fold values.
  fold (cumulative_return values).
  fold (percentile
          (count_lt (omap (λ col, comparable_return_of data col.1 col.2)
                       (index_columns data)) (cumulative_return values))
          (length (omap (λ col, comparable_return_of data col.1 col.2)
                     (index_columns data)))).
  destruct (length (rows_after _ _) =? 0)%nat eqn:Hrows.
  { apply Nat.eqb_eq, nil_length_inv in Hrows.
    subst values. unfold window_values. by rewrite Hrows. }
  destruct (length values <? 2)%nat eqn:Hvalues; [done|].
  assert (Hr : comparable_return_of data name vs
               = Some (cumulative_return values)).
  { unfold comparable_return_of, comparable_return. fold values. lazy zeta.
    apply Nat.ltb_ge in Hvalues. by rewrite (proj2 (Nat.leb_le _ _) Hvalues). }
  destruct (all_returns_peers data name vs (index_columns data) _
              Hnames Hin Hr) as [Hcount Hlength].
  fold (peer_cumulative_returns data name) in Hcount, Hlength.
  fold peers in Hcount, Hlength.
  rewrite Hcount, Hlength. by rewrite Nat.add_1_r.
Qed.

Lemma count_lt_le (rs : list float) (x : float) :
  (count_lt rs x ≤ length rs)%nat.
Proof. unfold count_lt. apply length_filter. Qed.

Lemma length_omap_le {A B} (f : A → option B) (l : list A) :
  (length (omap f l) ≤ length l)%nat.
Proof.
  induction l as [|x l IH]; [done|]. rewrite omap_cons_match.
  destruct (f x); simpl; lia.
Qed.

(** A rank percentile that is not absent is the percentile of some [k]
    among [n], [k] at most [n]. *)
Lemma rank_percentile_counts data (c : gmap string Series) name v :
  (calculate_rank_percentile_4y data name c).1 = inr (Some v) →
  ∃ k n, (k ≤ n)%nat ∧ n ≠ 0%nat ∧ v = percentile k n.
Proof.
  unfold calculate_rank_percentile_4y.
  destruct (negb (in_columns data name)); [done|].
  destruct (select data name) as [e|df]; [done|]. lazy zeta.
  destruct (length (rows_after _ _) =? 0)%nat; [done|].
  destruct (length (dropna _) <? 2)%nat; [done|].
  destruct (length (foldl _ _ _) =? 0)%nat eqn:Hn; [done|].
  apply Nat.eqb_neq in Hn. intros [= <-].
  eexists _, _. split; [apply count_lt_le|]. split; [exact Hn|reflexivity].
Qed.

Lemma rank_percentile_index data (c : gmap string Series) name v :
  (calculate_rank_percentile_4y data name c).1 = inr (Some v) →
  ∃ vs, (name, vs) ∈ index_columns data.
Proof.
  unfold calculate_rank_percentile_4y, in_columns, columns.
  case_bool_decide as Hname; [|done]. simpl.
  apply elem_of_cons in Hname as [->|Hname]; [done|].
  apply list_elem_of_fmap in Hname as ([n vs] & -> & Hin). by exists vs.
Qed.

(** On a loaded table the target is one of the [n] and is not counted
    among the [k]: [k < n], and [n] is at most the number of indices. *)
Lemma rank_percentile_counts_wf data (c : gmap string Series) name v :
  wf_table data →
  (calculate_rank_percentile_4y data name c).1 = inr (Some v) →
  ∃ k n, (k < n ≤ length (index_columns data))%nat ∧ v = percentile k n.
Proof.
  intros Hwf Hrun.
  destruct (rank_percentile_index data c name v Hrun) as [vs Hin].
  rewrite (rank_percentile_spec data c name vs Hwf Hin) in Hrun.
  cbn [fst] in Hrun.
  destruct (length (window_values data (ranked_column data name vs)) <? 2)%nat
    eqn:Hlen; [done|].
  injection Hrun as <-. apply Nat.ltb_ge in Hlen.
  set (peers := peer_cumulative_returns data name).
  set (r := cumulative_return (window_values data (ranked_column data name vs))).
  pose proof (count_lt_le peers r) as Hk.
  assert (Hr : comparable_return_of data name vs = Some r).
  { unfold comparable_return_of, comparable_return. lazy zeta.
    by rewrite (proj2 (Nat.leb_le _ _) Hlen). }
  assert (Hnames : NoDup (index_columns data).*1).
  { destruct Hwf as [Hnd _]. by apply NoDup_cons in Hnd as [_ Hnd]. }
  destruct (all_returns_peers data name vs (index_columns data) r
              Hnames Hin Hr) as [_ Hlength].
  fold (peer_cumulative_returns data name) in Hlength. fold peers in Hlength.
  pose proof (length_omap_le (λ col : string * list float,
                                comparable_return_of data col.1 col.2)
                (index_columns data)) as Hcols.
  exists (count_lt peers r), (length peers + 1)%nat. split; [lia|done].
Qed.

(** ** The percentile and its rounding *)

(** The quotient and its product by 100 grow with the fraction [k / n]
    and stay between 0 and 100. *)
Lemma percentile_unrounded (k1 n1 k2 n2 : nat) :
  n1 ≠ 0%nat → n2 ≠ 0%nat → (k1 * n2 ≤ k2 * n1)%nat → (k2 ≤ n2)%nat →
  ∃ p1 p2,
    fmul (fdiv (of_nat k1) (of_nat n1)) (Fin 100) = Fin p1
    ∧ fmul (fdiv (of_nat k2) (of_nat n2)) (Fin 100) = Fin p2
    ∧ (0 <= p1)%Q ∧ (p1 <= p2)%Q ∧ (p2 <= 100)%Q.
Proof.
  intros Hn1 Hn2 Hfrac Hk2. rewrite !fdiv_of_nat by done.
  set (q1 := (inject_Z (Z.of_nat k1) / inject_Z (Z.of_nat n1))%Q).
  set (q2 := (inject_Z (Z.of_nat k2) / inject_Z (Z.of_nat n2))%Q).
  assert (HN1 : (0 < inject_Z (Z.of_nat n1))%Q).
  { change 0%Q with (inject_Z 0). rewrite <- Zlt_Qlt. lia. }
  assert (HN2 : (0 < inject_Z (Z.of_nat n2))%Q).
  { change 0%Q with (inject_Z 0). rewrite <- Zlt_Qlt. lia. }
  assert (Hq1 : (0 <= q1)%Q).
  { subst q1. apply Qle_shift_div_l; [done|]. rewrite Qmult_0_l.
    change 0%Q with (inject_Z 0). rewrite <- Zle_Qle. lia. }
  assert (Hq12 : (q1 <= q2)%Q).
  { subst q1 q2. apply Qle_shift_div_r; [done|].
    unfold Qdiv. rewrite <- Qmult_assoc, (Qmult_comm (/ _)), Qmult_assoc.
    apply Qle_shift_div_l; [done|].
    rewrite <- !inject_Z_mult, <- Zle_Qle. lia. }
  assert (Hq2 : (q2 <= 1)%Q).
  { subst q2. apply Qle_shift_div_r; [done|]. rewrite Qmult_1_l.
    rewrite <- Zle_Qle. lia. }
  clearbody q1 q2.
  assert (H0 : of_Q 0 = Fin 0) by (by vm_compute).
  assert (H1 : of_Q 1 = Fin 1) by (by vm_compute).
  assert (H100 : of_Q 100 = Fin 100) by (by vm_compute).
  destruct (of_Q_between 0 1 0 1 q1 H0 H1) as (r1 & Hr1 & Hr1lo & Hr1hi);
    [done|lra|].
  destruct (of_Q_between 0 1 0 1 q2 H0 H1) as (r2 & Hr2 & Hr2lo & Hr2hi);
    [lra|done|].
  pose proof (of_Q_mono q1 q2 Hq12) as Hr12. rewrite Hr1, Hr2 in Hr12.
  simpl in Hr12. rewrite Hr1, Hr2, !fmul_Fin.
  destruct (of_Q_between 0 100 0 100 (r1 * 100) H0 H100)
    as (p1 & Hp1 & Hp1lo & Hp1hi); [lra|lra|].
  destruct (of_Q_between 0 100 0 100 (r2 * 100) H0 H100)
    as (p2 & Hp2 & Hp2lo & Hp2hi); [lra|lra|].
  assert (Hp12 : fle (of_Q (r1 * 100)) (of_Q (r2 * 100)))
    by (apply of_Q_mono; lra).
  rewrite Hp1, Hp2 in Hp12. by exists p1, p2.
Qed.

(** The percentile grows with the fraction [k / n]. *)
Lemma percentile_mono (k1 n1 k2 n2 : nat) :
  n1 ≠ 0%nat → n2 ≠ 0%nat → (k1 * n2 ≤ k2 * n1)%nat → (k2 ≤ n2)%nat →
  fle (percentile k1 n1) (percentile k2 n2).
Proof.
  intros Hn1 Hn2 Hfrac Hk2.
  destruct (percentile_unrounded k1 n1 k2 n2 Hn1 Hn2 Hfrac Hk2)
    as (p1 & p2 & Hp1 & Hp2 & _ & Hp12 & _).
  unfold percentile. rewrite Hp1, Hp2. by apply round_mono.
Qed.

(** A number of two decimals between 0 and 100, as a double. *)
Lemma two_decimals (z : Z) :
  0 ≤ z ≤ 10000 →
  ∃ q, of_Q (inject_Z z / inject_Z 100) = Fin q
       ∧ (0 <= q)%Q ∧ (q <= 100)%Q
       ∧ (z < 10000 → (q < 100)%Q) ∧ (0 < z → (0 < q)%Q).
Proof.
  intros Hz.
  assert (Hq : (inject_Z 0 / inject_Z 100 <= inject_Z z / inject_Z 100)%Q
               ∧ (inject_Z z / inject_Z 100 <= inject_Z 10000 / inject_Z 100)%Q).
  { split; (apply Qmult_le_compat_r; [rewrite <- Zle_Qle; lia|done]). }
  destruct Hq as [Hlo Hhi].
  destruct (of_Q_between (inject_Z 0 / inject_Z 100)
              (inject_Z 10000 / inject_Z 100) 0 100 _
              ltac:(by vm_compute) ltac:(by vm_compute) Hlo Hhi)
    as (q & Hq & Hq0 & Hq100).
  exists q. split; [exact Hq|]. split; [exact Hq0|]. split; [exact Hq100|].
  split.
  - intros Hlt.
    assert (H : fle (of_Q (inject_Z z / inject_Z 100))
                    (of_Q (inject_Z 9999 / inject_Z 100))).
    { apply of_Q_mono. apply Qmult_le_compat_r; [|done].
      rewrite <- Zle_Qle. lia. }
    rewrite Hq in H. vm_compute of_Q in H. simpl in H.
    eapply Qle_lt_trans; [exact H|]. reflexivity.
  - intros Hpos.
    assert (H : fle (of_Q (inject_Z 1 / inject_Z 100))
                    (of_Q (inject_Z z / inject_Z 100))).
    { apply of_Q_mono. apply Qmult_le_compat_r; [|done].
      rewrite <- Zle_Qle. lia. }
    rewrite Hq in H. vm_compute of_Q in H. simpl in H.
    eapply Qlt_le_trans; [|exact H]. reflexivity.
Qed.

(** The percentile is a number of two decimals between 0 and 100, as a
    double; with [k < n] and [n] below 20000 it is at most 99.99. *)
Lemma percentile_decimal (k n : nat) :
  (k ≤ n)%nat → n ≠ 0%nat →
  ∃ z, 0 ≤ z ≤ 10000
       ∧ percentile k n = of_Q (inject_Z z / inject_Z 100)
       ∧ ((k < n)%nat → Z.of_nat n < 20000 → z ≤ 9999).
Proof.
  intros Hk Hn.
  destruct (percentile_unrounded k n k n Hn Hn)
    as (p & p' & Hp & Hp' & Hp0 & Hpp & Hp100); [lia|done|].
  assert (Hp100' : (p <= 100)%Q) by lra. clear p' Hp' Hpp Hp100.
  exists (round_half_even (p * inject_Z 100)).
  split; [|split].
  - split.
    + apply round_half_even_ge. change (inject_Z 0) with 0%Q.
      change (inject_Z 100) with 100%Q. lra.
    + apply round_half_even_le. change (inject_Z 10000) with 10000%Q.
      change (inject_Z 100) with 100%Q. lra.
  - unfold percentile. by rewrite Hp.
  - intros Hlt Hsmall.
    destruct (percentile_unrounded k n (Z.to_nat 19998) (Z.to_nat 19999) Hn)
      as (p1 & p2 & Hp1 & Hp2 & _ & Hp12 & _); [lia|lia|lia|].
    rewrite Hp in Hp1. injection Hp1 as <-.
    vm_compute in Hp2. injection Hp2 as <-.
    etrans; [apply (round_half_even_mono _ _
                      (Qmult_le_compat_r _ _ (inject_Z 100) Hp12 ltac:(done)))|].
    by vm_compute.
Qed.

Lemma elem_of_numbers_from (z : Z) (n : nat) (x : Z) :
  x ∈ numbers_from z n ↔ z ≤ x < z + Z.of_nat n.
Proof.
  revert z. induction n as [|n IH]; intros z.
  - simpl. rewrite elem_of_nil. lia.
  - cbn [numbers_from]. rewrite elem_of_cons, IH. lia.
Qed.

(** [100 - x] rounded to two decimals, for a number [x] of two decimals
    between 0 and 100, is the number of two decimals [100 - x], as a
    double: checked for each of the 10001 numbers. *)
Lemma complement_checked :
  forallb complement_ok (numbers_from 0 (Z.to_nat 10001)) = true.
Proof. by vm_compute. Qed.

Lemma Qred_idem (q : Q) : Qred (Qred q) = Qred q.
Proof. apply Qred_complete, Qred_correct. Qed.

Lemma same_double_of_Q (x : float) (q : Q) :
  (∀ a, x = Fin a → Qred a = a) →
  same_double x (of_Q q) = true → x = of_Q q.
Proof.
  intros Hx. unfold of_Q.
  destruct (Qle_bool _ _); [destruct (Qposb _); by destruct x|].
  destruct x as [a| | |]; try done. simpl. intros Heq%Qeq_bool_iff.
  apply Qred_complete in Heq. rewrite Qred_idem in Heq.
  rewrite (Hx a eq_refl) in Heq. by rewrite Heq.
Qed.

Lemma of_Q_reduced (q a : Q) : of_Q q = Fin a → Qred a = a.
Proof.
  unfold of_Q. destruct (Qle_bool _ _); [by destruct (Qposb _)|].
  intros [= <-]. apply Qred_idem.
Qed.

Lemma round_complement (z : Z) :
  0 ≤ z ≤ 10000 →
  round (fsub (Fin 100) (of_Q (inject_Z z / inject_Z 100))) 2
  = of_Q (inject_Z (10000 - z) / inject_Z 100).
Proof.
  intros Hz. pose proof complement_checked as Hall.
  rewrite forallb_forall in Hall. specialize (Hall z).
  unfold complement_ok in Hall. apply same_double_of_Q.
  - intros a Ha.
    destruct (fsub (Fin 100) (of_Q (inject_Z z / inject_Z 100))) as [s| | |];
      try done.
    rewrite round_Fin in Ha. by apply of_Q_reduced in Ha.
  - apply Hall. apply list_elem_of_In, elem_of_numbers_from. lia.
Qed.

(** The operations round as doubles do.  23 of 160 is 14.375, but
    [(23 / 160) * 100] is the double below it, 14.374999999999998, and
    the percentile is 14.37; [4001 / 4000 - 1] is a double above 0.00025
    and is rounded to 0.0003; [100 - 14.29] is the double
    85.71000000000001, which is not the double 85.71; and [(1 / 3) / 2 - 1]
    and [(5 / 3) / 10 - 1], two ways to compute minus five sixths, are
    two doubles. *)
Lemma binary64_examples :
  percentile 23 160 = of_Q (1437 # 100)
  ∧ round (fsub (fdiv (Fin 4001) (Fin 4000)) (Fin 1)) 4 = of_Q (3 # 10000)
  ∧ fsub (Fin 100) (of_Q (1429 # 100))
    = of_Q (8571000000000001 # 100000000000000)
  ∧ fsub (Fin 100) (of_Q (1429 # 100)) ≠ of_Q (8571 # 100)
  ∧ fltb (fsub (fdiv (fdiv (Fin 1) (Fin 3)) (Fin 2)) (Fin 1))
         (fsub (fdiv (fdiv (Fin 5) (Fin 3)) (Fin 10)) (Fin 1)) = true.
Proof.
  split; [by vm_compute|]. split; [by vm_compute|]. split; [by vm_compute|].
  split; [|by vm_compute]. vm_compute. discriminate.
Qed.

(** C1 as stated fails: the number of comparable indices the count is
    divided by includes the target.  In the example table A gains 100%
    and B loses 50% over the window; for A the claim gives 1 / 1, that is
    100, and the code returns 1 / 2, that is 50. *)
Lemma C1_counterexample_denominator :
  window_values example_table [Fin 3; Fin 3; Fin 4; NaN; Fin 6]
  = [Fin 3; Fin 3; Fin 4; Fin 6]
  ∧ peer_cumulative_returns example_table "A" = [Fin (-1 # 2)]
  ∧ rank_percentile_as_claimed example_table "A"
      [Fin 3; Fin 3; Fin 4; NaN; Fin 6] = Some (Fin 100)
  ∧ calculate_rank_percentile_4y example_table "A" ∅
    = (inr (Some (Fin 50)), ∅).
Proof. repeat split; by vm_compute. Qed.

(** C1 (amended): for a column of a loaded table, the rank percentile is
    absent when the column has fewer than two non-absent daily values in
    the window; otherwise it is the number of other comparable indices
    whose cumulative return is strictly less than the target's, divided
    by the number of comparable indices with the target counted in,
    times 100, rounded to two decimals, all four steps on doubles.  The
    cells the returns are computed from are those of the column itself,
    unless it is named Year. *)
Theorem C1_rank_percentile data (c : gmap string Series) name vs :
  wf_table data → (name, vs) ∈ index_columns data →
  let values := window_values data (ranked_column data name vs) in
  let peers := peer_cumulative_returns data name in
  (name ≠ "Year"%string → ranked_column data name vs = vs)
  ∧ ((length values < 2)%nat →
     calculate_rank_percentile_4y data name c = (inr None, c))
  ∧ ((2 ≤ length values)%nat →
     calculate_rank_percentile_4y data name c
     = (inr (Some (round (fmul (fdiv (of_nat (count_lt peers
                                               (cumulative_return values)))
                                     (of_nat (length peers + 1)))
                               (Fin 100)) 2)), c)).
Proof.
  intros Hwf Hin values peers. split.
  { intros Hy. apply ranked_column_other; [done|]. by eapply column_length. }
  rewrite (rank_percentile_spec data c name vs Hwf Hin).
  fold values. fold peers. split; intros Hlen.
  - by rewrite (proj2 (Nat.ltb_lt _ _) Hlen).
  - by rewrite (proj2 (Nat.ltb_ge _ _) Hlen).
Qed.

Lemma C1_rank_percentile_witness :
  calculate_rank_percentile_4y example_table "A" ∅
  = (inr (Some (Fin 50)), ∅).
Proof.
  rewrite (proj2 (proj2 (C1_rank_percentile example_table ∅ "A"
                           [Fin 3; Fin 3; Fin 4; NaN; Fin 6] wf_example_table
                           ltac:(apply elem_of_cons; by left)))).
  - by vm_compute.
  - vm_compute. lia.
Defined.

(** C4 as stated fails.  Index MID of the table of seven indices has one
    index below it: its rank percentile is [1 / 7 * 100] rounded, 14.29,
    and its inverse rank percentile is 85.71; but 100 minus the double
    14.29 is the double 85.71000000000001. *)
Lemma C4_counterexample_not_exact :
  calculate_rank_percentile_4y seven_indices "MID" ∅
  = (inr (Some (of_Q (1429 # 100))), ∅)
  ∧ calculate_inverse_rank_percentile seven_indices "MID" ∅
    = (inr (Some (of_Q (8571 # 100))), ∅)
  ∧ fsub (Fin 100) (of_Q (1429 # 100))
    = of_Q (8571000000000001 # 100000000000000)
  ∧ fsub (Fin 100) (of_Q (1429 # 100)) ≠ of_Q (8571 # 100).
Proof.
  split; [by vm_compute|]. split; [by vm_compute|]. split; [by vm_compute|].
  vm_compute. discriminate.
Qed.

(** C4 (amended): the inverse rank percentile is absent when the rank
    percentile is absent, and an error of the rank percentile is passed
    on; otherwise it is [100 - rank_percentile] rounded to two decimals.
    The rank percentile being the double of a number [z / 100] of two
    decimals, the inverse is the double of the number [100 - z / 100]:
    the two add up to 100 as decimal numbers, not as doubles. *)
Theorem C4_inverse_rank_percentile data (c : gmap string Series) name :
  calculate_inverse_rank_percentile data name c
  = match calculate_rank_percentile_4y data name c with
    | (inr (Some rank_percentile), c') =>
        (inr (Some (round (fsub (Fin 100) rank_percentile) 2)), c')
    | (inr None, c') => (inr None, c')
    | (inl e, c') => (inl e, c')
    end
  ∧ ∀ rank_percentile,
      (calculate_rank_percentile_4y data name c).1
      = inr (Some rank_percentile) →
      ∃ z, 0 ≤ z ≤ 10000
        ∧ rank_percentile = of_Q (inject_Z z / inject_Z 100)
        ∧ (calculate_inverse_rank_percentile data name c).1
          = inr (Some (of_Q (inject_Z (10000 - z) / inject_Z 100))).
Proof.
  assert (Hrun : calculate_inverse_rank_percentile data name c
    = match calculate_rank_percentile_4y data name c with
      | (inr (Some rank_percentile), c') =>
          (inr (Some (round (fsub (Fin 100) rank_percentile) 2)), c')
      | (inr None, c') => (inr None, c')
      | (inl e, c') => (inl e, c')
      end).
  { unfold calculate_inverse_rank_percentile, mbind, M_bind.
    by destruct (calculate_rank_percentile_4y data name c) as [[e|[v|]] c']. }
  split; [exact Hrun|]. intros rp Hrp.
  destruct (rank_percentile_counts data c name rp Hrp) as (k & n & Hk & Hn & ->).
  destruct (percentile_decimal k n Hk Hn) as (z & Hz & Hdec & _).
  exists z. split; [exact Hz|]. split; [exact Hdec|].
  rewrite Hrun.
  destruct (calculate_rank_percentile_4y data name c) as [[e|[v|]] c'];
    try done.
  cbn [fst] in *. injection Hrp as ->. by rewrite Hdec, round_complement.
Qed.

Lemma C4_inverse_rank_percentile_witness :
  ∃ z, 0 ≤ z ≤ 10000
    ∧ of_Q (1429 # 100) = of_Q (inject_Z z / inject_Z 100)
    ∧ (calculate_inverse_rank_percentile seven_indices "MID" ∅).1
      = inr (Some (of_Q (inject_Z (10000 - z) / inject_Z 100))).
Proof.
  apply (proj2 (C4_inverse_rank_percentile seven_indices ∅ "MID")).
  by vm_compute.
Defined.

(** ** The range of the rank percentile *)

(** The bounds of a rank percentile. *)
Lemma rank_percentile_bounds data (c : gmap string Series) name rp :
  wf_table data →
  (calculate_rank_percentile_4y data name c).1 = inr (Some rp) →
  ∃ (k n : nat) (z : Z) (q : Q),
    (k < n ≤ length (index_columns data))%nat
    ∧ rp = percentile k n
    ∧ 0 ≤ z ≤ 10000
    ∧ rp = of_Q (inject_Z z / inject_Z 100)
    ∧ rp = Fin q ∧ (0 <= q)%Q ∧ (q <= 100)%Q
    ∧ (Z.of_nat (length (index_columns data)) < 20000 →
       z ≤ 9999 ∧ (q < 100)%Q).
Proof.
  intros Hwf Hrun.
  destruct (rank_percentile_counts_wf data c name rp Hwf Hrun)
    as (k & n & Hkn & ->).
  destruct (percentile_decimal k n) as (z & Hz & Hdec & Hsmall); [lia|lia|].
  destruct (two_decimals z Hz) as (q & Hq & Hq0 & Hq100 & Hlt & _).
  exists k, n, z, q. split; [exact Hkn|]. split; [done|]. split; [exact Hz|].
  split; [exact Hdec|]. split; [by rewrite Hdec|]. split; [exact Hq0|].
  split; [exact Hq100|]. intros Hn.
  assert (Hz' : z ≤ 9999) by (apply Hsmall; lia).
  split; [exact Hz'|]. apply Hlt. lia.
Qed.








(** * Further properties of the service *)

(** ** The cache *)

Lemma memoised_ret {A} data (a : A) : memoised data (mret a).
Proof. intros c Hc. by repeat split. Qed.

Lemma memoised_raise {A} data (e : exn) : memoised data (@raise A e).
Proof. intros c Hc. by repeat split. Qed.

Lemma memoised_bind {A B} data (m : M A) (f : A → M B) :
  memoised data m → (∀ a, memoised data (f a)) → memoised data (m ≫= f).
Proof.
  intros Hm Hf c Hc. destruct (Hm c Hc) as (Hr & Hc' & Hsub).
  pose proof (Hm ∅ (cache_ok_empty data)) as (_ & Hc0 & _).
  unfold mbind, M_bind.
  destruct (m c) as [[e|a] c'] eqn:Hmc;
    destruct (m ∅) as [[e0|a0] c0] eqn:Hm0; simpl in *; try done.
  - by injection Hr as ->.
  - injection Hr as ->.
    destruct (Hf a0 c' Hc') as (Hr1 & Hc1 & Hsub1).
    destruct (Hf a0 c0 Hc0) as (Hr0 & _ & _).
    split; [congruence|]. split; [done|]. by etrans.
Qed.

Lemma memoised_try_except {A} data (body handler : M A) :
  memoised data body → memoised data handler →
  memoised data (try_except body handler).
Proof.
  intros Hb Hh c Hc. destruct (Hb c Hc) as (Hr & Hc' & Hsub).
  pose proof (Hb ∅ (cache_ok_empty data)) as (_ & Hc0 & _).
  unfold try_except.
  destruct (body c) as [[e|a] c'] eqn:Hbc;
    destruct (body ∅) as [[e0|a0] c0] eqn:Hb0; simpl in *; try done.
  destruct (Hh c' Hc') as (Hr1 & Hc1 & Hsub1).
  destruct (Hh c0 Hc0) as (Hr0 & _ & _).
  split; [congruence|]. split; [done|]. by etrans.
Qed.

Lemma memoised_for_each {A B} data (xs : list A) (body : B → A → M B) acc :
  (∀ acc x, memoised data (body acc x)) →
  memoised data (for_each xs body acc).
Proof.
  intros Hbody. revert acc. induction xs as [|x xs IH]; intros acc.
  - apply memoised_ret.
  - cbn [for_each]. apply memoised_bind; [apply Hbody|]. intros a. apply IH.
Qed.

Lemma memoised_calculate_monthly_average data name :
  memoised data (calculate_monthly_average data name).
Proof.
  intros c Hc.
  destruct (calculate_monthly_average_spec data c name Hc) as (c' & Hrun & Hc').
  destruct (calculate_monthly_average_spec data ∅ name (cache_ok_empty data))
    as (c0 & Hrun0 & _).
  rewrite Hrun, Hrun0. split; [done|]. split; [done|]. simpl.
  revert Hrun. unfold calculate_monthly_average.
  destruct (c !! _) as [s|] eqn:Hs.
  - by intros [= _ <-].
  - destruct (select data name) as [e|df].
    + by intros [= <-].
    + intros [= <-]. by apply insert_subseteq.
Qed.


(** The rank percentile is computed from the table alone: the cache is
    neither read nor written. *)
Lemma rank_percentile_cache_free data (c : gmap string Series) name :
  calculate_rank_percentile_4y data name c
  = ((calculate_rank_percentile_4y data name ∅).1, c).
Proof.
  unfold calculate_rank_percentile_4y.
  destruct (negb (in_columns data name)); [done|].
  destruct (select data name) as [e|df]; [done|]. lazy zeta.
  destruct (length (rows_after _ _) =? 0)%nat; [done|].
  destruct (length (dropna _) <? 2)%nat; [done|].
  by destruct (length (foldl _ _ _) =? 0)%nat.
Qed.

Lemma memoised_rank_percentile data name :
  memoised data (calculate_rank_percentile_4y data name).
Proof.
  intros c Hc. rewrite rank_percentile_cache_free. by repeat split.
Qed.

Lemma memoised_collect_returns data acc col :
  memoised data (collect_returns data acc col).
Proof.
  unfold collect_returns. case_bool_decide; [apply memoised_ret|].
  apply memoised_try_except; [|apply memoised_ret].
  apply memoised_bind; [apply memoised_calculate_monthly_average|].
  intros s. apply memoised_ret.
Qed.

(** Every operation of the service is memoised. *)
Lemma service_memoised data name forward_period :
  memoised data (calculate_monthly_average data name)
  ∧ memoised data (generate_heatmap_matrix data name)
  ∧ memoised data (generate_monthly_price_matrix data name)
  ∧ memoised data (calculate_avg_monthly_profits_3y data name)
  ∧ memoised data (calculate_rank_percentile_4y data name)
  ∧ memoised data (calculate_inverse_rank_percentile data name)
  ∧ memoised data (calculate_monthly_rank_position data name)
  ∧ memoised data (calculate_forward_returns data name forward_period).
Proof.
  pose proof (memoised_calculate_monthly_average data name) as Havg.
  split; [exact Havg|]. split.
  { unfold generate_heatmap_matrix.
    destruct (negb _); [apply memoised_raise|].
    apply memoised_bind; [done|]. intros s. apply memoised_ret. }
  split.
  { unfold generate_monthly_price_matrix.
    destruct (negb _); [apply memoised_raise|].
    apply memoised_bind; [done|]. intros s. apply memoised_ret. }
  split.
  { unfold calculate_avg_monthly_profits_3y.
    destruct (negb _); [apply memoised_raise|].
    apply memoised_bind; [done|]. intros s. lazy zeta.
    destruct (last _) as [[latest_date v]|]; [|apply memoised_ret].
    destruct (length _ =? 0)%nat; apply memoised_ret. }
  split; [apply memoised_rank_percentile|]. split.
  { unfold calculate_inverse_rank_percentile.
    apply memoised_bind; [apply memoised_rank_percentile|].
    intros [rp|]; apply memoised_ret. }
  split.
  { unfold calculate_monthly_rank_position.
    destruct (negb _); [apply memoised_raise|].
    apply memoised_bind; [done|]. intros s. lazy zeta.
    apply memoised_bind.
    - apply memoised_for_each. intros acc col. apply memoised_collect_returns.
    - intros all. apply memoised_ret. }
  unfold calculate_forward_returns.
  destruct (negb _); [apply memoised_raise|].
  destruct (period_map !! forward_period) as [h|]; [|apply memoised_raise].
  apply memoised_bind; [done|]. intros s. apply memoised_ret.
Qed.

(** X2: on a consistent cache every operation returns what it returns
    on the empty cache of a new service: what the cache holds never
    changes a result. *)
Theorem results_independent_of_cache data (c : gmap string Series)
    name forward_period :
  cache_ok data c →
  (calculate_monthly_average data name c).1
  = (calculate_monthly_average data name ∅).1
  ∧ (generate_heatmap_matrix data name c).1
    = (generate_heatmap_matrix data name ∅).1
  ∧ (generate_monthly_price_matrix data name c).1
    = (generate_monthly_price_matrix data name ∅).1
  ∧ (calculate_avg_monthly_profits_3y data name c).1
    = (calculate_avg_monthly_profits_3y data name ∅).1
  ∧ (calculate_rank_percentile_4y data name c).1
    = (calculate_rank_percentile_4y data name ∅).1
  ∧ (calculate_inverse_rank_percentile data name c).1
    = (calculate_inverse_rank_percentile data name ∅).1
  ∧ (calculate_monthly_rank_position data name c).1
    = (calculate_monthly_rank_position data name ∅).1
  ∧ (calculate_forward_returns data name forward_period c).1
    = (calculate_forward_returns data name forward_period ∅).1.
Proof.
  intros Hc.
  destruct (service_memoised data name forward_period)
    as (H1 & H2 & H3 & H4 & H5 & H6 & H7 & H8).
  split; [apply (H1 c Hc)|]. split; [apply (H2 c Hc)|].
  split; [apply (H3 c Hc)|]. split; [apply (H4 c Hc)|].
  split; [apply (H5 c Hc)|]. split; [apply (H6 c Hc)|].
  split; [apply (H7 c Hc)|apply (H8 c Hc)].
Qed.

(** X3: every operation leaves a consistent cache consistent and keeps
    every entry it found: entries are added, never replaced or
    removed. *)
Theorem cache_stays_consistent data (c : gmap string Series)
    name forward_period :
  cache_ok data c →
  let kept {A} (m : M A) := cache_ok data (m c).2 ∧ c ⊆ (m c).2 in
  kept (calculate_monthly_average data name)
  ∧ kept (generate_heatmap_matrix data name)
  ∧ kept (generate_monthly_price_matrix data name)
  ∧ kept (calculate_avg_monthly_profits_3y data name)
  ∧ kept (calculate_rank_percentile_4y data name)
  ∧ kept (calculate_inverse_rank_percentile data name)
  ∧ kept (calculate_monthly_rank_position data name)
  ∧ kept (calculate_forward_returns data name forward_period).
Proof.
  intros Hc kept.
  destruct (service_memoised data name forward_period)
    as (H1 & H2 & H3 & H4 & H5 & H6 & H7 & H8).
  unfold kept.
  split; [apply (H1 c Hc)|]. split; [apply (H2 c Hc)|].
  split; [apply (H3 c Hc)|]. split; [apply (H4 c Hc)|].
  split; [apply (H5 c Hc)|]. split; [apply (H6 c Hc)|].
  split; [apply (H7 c Hc)|apply (H8 c Hc)].
Qed.

Lemma results_independent_of_cache_witness :
  let c := (calculate_monthly_average example_table "A" ∅).2 in
  c !! "A:monthly_avg:"%string
  = Some [((2020, 1), Fin 3); ((2020, 2), Fin 4); ((2020, 3), NaN);
          ((2021, 1), Fin 6)]
  ∧ (generate_heatmap_matrix example_table "A" c).1
    = (generate_heatmap_matrix example_table "A" ∅).1.
Proof.
  intros c. split; [by vm_compute|].
  assert (Hc : cache_ok example_table c).
  { apply (memoised_calculate_monthly_average example_table "A" ∅).
    apply cache_ok_empty. }
  apply (results_independent_of_cache example_table c "A" "1M" Hc).
Defined.

Lemma cache_stays_consistent_witness :
  let c := (calculate_monthly_average example_table "A" ∅).2 in
  c ⊆ (calculate_monthly_rank_position example_table "A" c).2.
Proof.
  intros c.
  assert (Hc : cache_ok example_table c).
  { apply (memoised_calculate_monthly_average example_table "A" ∅).
    apply cache_ok_empty. }
  apply (cache_stays_consistent example_table c "A" "1M" Hc).
Defined.

(** ** Month-over-month returns once more *)

(** X4: the return series has the buckets of the monthly series, in the
    same order; its first value is absent and every later value is
    [(current / previous) - 1] on doubles. *)
Theorem mom_returns_buckets (s : Series) :
  (calculate_mom_returns s).*1 = s.*1
  ∧ length (calculate_mom_returns s) = length s
  ∧ (∀ idx v, s !! 0%nat = Some (idx, v) →
       calculate_mom_returns s !! 0%nat = Some (idx, NaN))
  ∧ (∀ i idx_p p idx v,
       s !! i = Some (idx_p, p) → s !! S i = Some (idx, v) →
       calculate_mom_returns s !! S i
       = Some (idx, fsub (fdiv v p) (Fin 1))).
Proof.
  assert (Hkeys : (calculate_mom_returns s).*1 = s.*1).
  { rewrite calculate_mom_returns_from. apply mom_from_keys. }
  split; [exact Hkeys|]. split.
  { rewrite <- (length_fmap fst), Hkeys. apply length_fmap. }
  split.
  - intros idx v H0. rewrite calculate_mom_returns_lookup. by rewrite H0.
  - intros i idx_p p idx v Hp Hv. rewrite calculate_mom_returns_lookup.
    by rewrite Hp, Hv.
Qed.

Lemma mom_returns_buckets_witness :
  calculate_mom_returns [((2020, 1), Fin 100); ((2020, 2), Fin 150)] !! 1%nat
  = Some ((2020, 2), Fin (1 # 2)).
Proof.
  etrans;
    [exact (proj2 (proj2 (proj2 (mom_returns_buckets
              [((2020, 1), Fin 100); ((2020, 2), Fin 150)])))
            0%nat (2020, 1) (Fin 100) (2020, 2) (Fin 150)
            ltac:(reflexivity) ltac:(reflexivity))|].
  by vm_compute.
Defined.


(** ** The four matrices *)

Lemma fill_cell_is_Some {A V} (f : A → key) (g : A → option V)
    (l : list A) (idx : key) :
  NoDup (f <$> l) →
  is_Some (cell (foldl (λ m a, set_cell m (str (f a).1) (str (f a).2) (g a))
                   ∅ l) idx)
  ↔ idx ∈ f <$> l.
Proof.
  intros Hnd. split.
  - intros Hsome. destruct (decide (idx ∈ f <$> l)) as [|Hnin]; [done|].
    rewrite fill_cell_notin in Hsome by done. unfold cell in Hsome.
    rewrite lookup_empty in Hsome. by destruct Hsome.
  - intros Hin. apply list_elem_of_fmap in Hin as (a & -> & Hin).
    by rewrite fill_cell_lookup.
Qed.

Lemma mom_series_keys data vs :
  (mom_series data vs).*1 = (monthly_series data vs).*1.
Proof.
  unfold mom_series. rewrite calculate_mom_returns_from. apply mom_from_keys.
Qed.

(** The buckets of a monthly series are those of the DATE column,
    whatever the cells. *)
Lemma monthly_series_keys_eq data vs vs' :
  length vs = length (DATE data) → length vs' = length (DATE data) →
  (monthly_series data vs).*1 = (monthly_series data vs').*1.
Proof.
  intros Hlen Hlen'. unfold monthly_series.
  by rewrite !groupby_mean_keys, !table_keys.
Qed.

Lemma monthly_avg_of_keys data name vs :
  wf_table data → (name, vs) ∈ index_columns data →
  (monthly_avg_of data name vs).*1 = (monthly_series data vs).*1.
Proof.
  intros Hwf Hin. pose proof (column_length _ _ _ Hwf Hin) as Hlen.
  apply monthly_series_keys_eq; [by apply averaged_column_length|done].
Qed.

Lemma monthly_avg_of_dates data name vs (k : key) :
  wf_table data → (name, vs) ∈ index_columns data →
  k ∈ (monthly_avg_of data name vs).*1
  ↔ ∃ d, d ∈ DATE data ∧ year_month d = k.
Proof.
  intros Hwf Hin. rewrite monthly_avg_of_keys by done.
  apply monthly_series_keys. by eapply column_length.
Qed.

Lemma mom_returns_of_keys data name vs :
  (mom_returns_of data name vs).*1 = (monthly_avg_of data name vs).*1.
Proof. apply mom_series_keys. Qed.

(** The same bucket, with some value, in two series with the same
    buckets. *)
Lemma lookup_same_keys (s s' : Series) (i : nat) idx v :
  s.*1 = s'.*1 → s !! i = Some (idx, v) → ∃ v', s' !! i = Some (idx, v').
Proof.
  unfold Series in *. intros Hkeys Hi.
  assert (Hk : s'.*1 !! i = Some idx).
  { rewrite <- Hkeys. rewrite list_lookup_fmap. by rewrite Hi. }
  rewrite list_lookup_fmap in Hk.
  destruct (s' !! i) as [[idx' v']|]; [|done].
  injection Hk as ->. by exists v'.
Qed.

Lemma heatmap_matrix_run data c name vs :
  wf_table data → cache_ok data c → (name, vs) ∈ index_columns data →
  ∃ c',
    generate_heatmap_matrix data name c
    = (inr (foldl (λ m a, set_cell m (str (a.1).1) (str (a.1).2)
                            (rounded_cell a.2 4))
                  ∅ (mom_returns_of data name vs)), c').
Proof.
  intros Hwf Hc Hin.
  destruct (calculate_monthly_average_index data c name vs Hwf Hc Hin)
    as (c' & Hrun & _).
  exists c'. unfold generate_heatmap_matrix.
  rewrite (in_columns_true _ _ (index_columns_in_columns _ _ _ Hin)).
  simpl. unfold mbind, M_bind. rewrite Hrun.
  unfold mom_returns_of, mom_series, monthly_avg_of.
  unfold mret, M_ret. do 2 f_equal. apply foldl_ext. by intros m [k v].
Qed.

Lemma price_matrix_run data c name vs :
  wf_table data → cache_ok data c → (name, vs) ∈ index_columns data →
  ∃ c',
    generate_monthly_price_matrix data name c
    = (inr (foldl (λ m a, set_cell m (str (a.1).1) (str (a.1).2)
                            (rounded_cell a.2 2))
                  ∅ (monthly_avg_of data name vs)), c').
Proof.
  intros Hwf Hc Hin.
  destruct (calculate_monthly_average_index data c name vs Hwf Hc Hin)
    as (c' & Hrun & _).
  exists c'. unfold generate_monthly_price_matrix.
  rewrite (in_columns_true _ _ (index_columns_in_columns _ _ _ Hin)).
  simpl. unfold mbind, M_bind. rewrite Hrun.
  unfold mret, M_ret. do 2 f_equal. apply foldl_ext. by intros m [k v].
Qed.

Lemma forward_returns_run data c name vs p h :
  wf_table data → cache_ok data c → (name, vs) ∈ index_columns data →
  period_map !! p = Some h →
  ∃ c',
    calculate_forward_returns data name p c
    = (inr (foldl (λ m a, set_cell m (str (a.2.1).1) (str (a.2.1).2)
                            (forward_cell (monthly_avg_of data name vs) h
                               a.1 a.2.2))
                  ∅ (enumerate (monthly_avg_of data name vs))), c').
Proof.
  intros Hwf Hc Hin Hh.
  destruct (calculate_monthly_average_index data c name vs Hwf Hc Hin)
    as (c' & Hrun & _).
  exists c'. unfold calculate_forward_returns.
  rewrite (in_columns_true _ _ (index_columns_in_columns _ _ _ Hin)), Hh.
  simpl. unfold mbind, M_bind. rewrite Hrun.
  unfold mret, M_ret. do 2 f_equal. apply foldl_ext. by intros m [j [k v]].
Qed.

Lemma forward_returns_cell (l : Series) h (m : Matrix float) i idx current :
  StronglySorted key_lt l.*1 →
  m = foldl (λ m a, set_cell m (str (a.2.1).1) (str (a.2.1).2)
                      (forward_cell l h a.1 a.2.2))
            ∅ (enumerate l) →
  l !! i = Some (idx, current) →
  cell m idx = Some (forward_cell l h i current).
Proof.
  intros Hsorted -> Hi.
  apply (fill_cell_lookup (λ a : nat * (key * float), a.2.1)
           (λ a, forward_cell l h a.1 a.2.2)
           _ _ (i, (idx, current))).
  - replace ((λ a : nat * (key * float), a.2.1) <$> enumerate l)
      with (enumerate l).*2.*1
      by (by rewrite <- list_fmap_compose).
    rewrite enumerate_snd. by apply sorted_NoDup.
  - by apply elem_of_enumerate.
Qed.

Lemma rank_position_run data c name vs :
  wf_table data → cache_ok data c → (name, vs) ∈ index_columns data →
  ∃ c',
    calculate_monthly_rank_position data name c
    = (inr (foldl
              (λ m a, set_cell m (str (a.1).1) (str (a.1).2)
                        (if isna a.2 then None
                         else if (0 <? length (peer_returns data name a.1))%nat
                              then Some (Z.of_nat
                                           (count_gt (peer_returns data name a.1)
                                              a.2 + 1))
                              else None))
              ∅ (mom_returns_of data name vs)), c').
Proof.
  intros Hwf Hc Hin.
  destruct (calculate_monthly_average_index data c name vs Hwf Hc Hin)
    as (c1 & Hrun & Hc1).
  assert (Hnames : NoDup ((@nil (string * Series)).*1
                          ++ (index_columns data).*1)).
  { destruct Hwf as [Hnd _]. by apply NoDup_cons in Hnd as [_ Hnd]. }
  destruct (all_indices_returns_spec data (index_columns data) [] c1 Hwf Hc1)
    as (c2 & Hfor & _); [done|exact Hnames|].
  exists c2. unfold calculate_monthly_rank_position.
  rewrite (in_columns_true _ _ (index_columns_in_columns _ _ _ Hin)).
  simpl. unfold mbind at 1, M_bind at 1. rewrite Hrun.
  unfold mbind at 1, M_bind at 1. unfold columns. cbn [for_each].
  unfold mbind at 1, M_bind at 1.
  unfold collect_returns at 1. rewrite bool_decide_eq_true_2 by done.
  cbn [mret M_ret]. rewrite Hfor. simpl. unfold mret, M_ret. do 2 f_equal.
  apply foldl_ext. intros m [k v]. simpl. destruct (isna v); [done|].
  rewrite same_month_returns_peers. by destruct (0 <? _)%nat.
Qed.








(** X8: the heatmap, the price matrix, the forward-return matrix and the
    rank matrix of a column all have a cell for exactly the (year, month)
    pairs that occur in the DATE column. *)
Theorem matrices_cover_the_months data c name vs p h :
  wf_table data → cache_ok data c → (name, vs) ∈ index_columns data →
  period_map !! p = Some h →
  ∃ heatmap price forward (rank : Matrix Z) c1 c2 c3 c4,
    generate_heatmap_matrix data name c = (inr heatmap, c1)
    ∧ generate_monthly_price_matrix data name c = (inr price, c2)
    ∧ calculate_forward_returns data name p c = (inr forward, c3)
    ∧ calculate_monthly_rank_position data name c = (inr rank, c4)
    ∧ ∀ idx,
        let present := ∃ d, d ∈ DATE data ∧ year_month d = idx in
        (is_Some (cell heatmap idx) ↔ present)
        ∧ (is_Some (cell price idx) ↔ present)
        ∧ (is_Some (cell forward idx) ↔ present)
        ∧ (is_Some (cell rank idx) ↔ present).
Proof.
  intros Hwf Hc Hin Hh.
  destruct (heatmap_matrix_run data c name vs Hwf Hc Hin) as [c1 H1].
  destruct (price_matrix_run data c name vs Hwf Hc Hin) as [c2 H2].
  destruct (forward_returns_run data c name vs p h Hwf Hc Hin Hh) as [c3 H3].
  destruct (rank_position_run data c name vs Hwf Hc Hin) as [c4 H4].
  eexists _, _, _, _, c1, c2, c3, c4.
  split; [exact H1|]. split; [exact H2|]. split; [exact H3|].
  split; [exact H4|].
  intros idx present. subst present.
  rewrite <- (monthly_avg_of_dates data name vs idx) by done.
  split; [|split; [|split]].
  - rewrite (fill_cell_is_Some fst) by apply mom_returns_of_NoDup.
    by rewrite mom_returns_of_keys.
  - by rewrite (fill_cell_is_Some fst)
      by apply sorted_NoDup, monthly_avg_of_sorted.
  - assert (Hkeys : (λ a : nat * (key * float), a.2.1)
                      <$> enumerate (monthly_avg_of data name vs)
                    = (monthly_avg_of data name vs).*1).
    { rewrite <- (enumerate_snd (monthly_avg_of data name vs)) at 2.
      by rewrite <- list_fmap_compose. }
    rewrite (fill_cell_is_Some (λ a : nat * (key * float), a.2.1)).
    + by rewrite Hkeys.
    + rewrite Hkeys. apply sorted_NoDup, monthly_avg_of_sorted.
  - rewrite (fill_cell_is_Some fst) by apply mom_returns_of_NoDup.
    by rewrite mom_returns_of_keys.
Qed.

Lemma matrices_cover_the_months_witness :
  ∃ heatmap c1,
    generate_heatmap_matrix example_table "A" ∅ = (inr heatmap, c1)
    ∧ is_Some (cell heatmap (2020, 3))
    ∧ ¬ is_Some (cell heatmap (2020, 4)).
Proof.
  destruct (matrices_cover_the_months example_table ∅ "A"
              [Fin 3; Fin 3; Fin 4; NaN; Fin 6] "1M" 1
              wf_example_table (cache_ok_empty _)
              ltac:(apply elem_of_cons; by left) ltac:(reflexivity))
    as (heatmap & price & forward & rank & c1 & c2 & c3 & c4
        & H1 & _ & _ & _ & Hcover).
  exists heatmap, c1. split; [exact H1|]. split.
  - apply (Hcover (2020, 3)).
    exists {| year := 2020; month := 3; day := 2 |}. split; [|done].
    apply (list_elem_of_lookup_2 _ 3%nat). reflexivity.
  - intros Hsome. apply (Hcover (2020, 4)) in Hsome as (d & Hd & Hym).
    repeat (apply elem_of_cons in Hd as [->|Hd]; [discriminate|]).
    by apply elem_of_nil in Hd.
Defined.

(** X9: when the table covers no more months than the horizon, the
    forward-return matrix holds [None] in the cell of every bucket. *)
Theorem forward_returns_short_series data c name vs p h :
  wf_table data → cache_ok data c → (name, vs) ∈ index_columns data →
  period_map !! p = Some h →
  (length (monthly_series data vs) ≤ h)%nat →
  ∃ matrix c',
    calculate_forward_returns data name p c = (inr matrix, c')
    ∧ ∀ idx value, (idx, value) ∈ monthly_series data vs →
        cell matrix idx = Some None.
Proof.
  intros Hwf Hc Hin Hh Hshort.
  destruct (forward_returns_run data c name vs p h Hwf Hc Hin Hh) as [c' Hrun].
  eexists _, c'. split; [exact Hrun|].
  pose proof (monthly_avg_of_keys data name vs Hwf Hin) as Hkeys.
  assert (Hlen : length (monthly_avg_of data name vs)
                 = length (monthly_series data vs)).
  { by rewrite <- (length_fmap fst), Hkeys, length_fmap. }
  intros idx value Hidx. apply list_elem_of_lookup in Hidx as [i Hi].
  destruct (lookup_same_keys _ (monthly_avg_of data name vs) i idx value
              (eq_sym Hkeys) Hi) as [value' Hi'].
  rewrite (forward_returns_cell _ h _ i idx value'
             (monthly_avg_of_sorted data name vs) eq_refl Hi').
  unfold forward_cell. by rewrite (proj2 (Nat.ltb_ge _ _)) by lia.
Qed.

Lemma forward_returns_short_series_witness :
  ∃ matrix c',
    calculate_forward_returns example_table "A" "1Y" ∅ = (inr matrix, c')
    ∧ cell matrix (2020, 1) = Some None.
Proof.
  destruct (forward_returns_short_series example_table ∅ "A"
              [Fin 3; Fin 3; Fin 4; NaN; Fin 6] "1Y" 12
              wf_example_table (cache_ok_empty _)
              ltac:(apply elem_of_cons; by left) ltac:(reflexivity)
              ltac:(vm_compute; lia))
    as (matrix & c' & Hrun & Hcells).
  exists matrix, c'. split; [exact Hrun|].
  apply (Hcells (2020, 1) (Fin 3)). apply elem_of_cons. by left.
Defined.



(** ** The trailing three-year average *)







(** ** Rank percentile: cache, bottom and order *)

(** X12: the rank percentile and the inverse rank percentile neither read
    nor write the cache: they return, with the cache as they found it,
    what they return on the empty cache. *)
Theorem rank_percentile_ignores_cache data (c : gmap string Series) name :
  calculate_rank_percentile_4y data name c
  = ((calculate_rank_percentile_4y data name ∅).1, c)
  ∧ calculate_inverse_rank_percentile data name c
    = ((calculate_inverse_rank_percentile data name ∅).1, c).
Proof.
  split; [apply rank_percentile_cache_free|].
  unfold calculate_inverse_rank_percentile, mbind, M_bind.
  rewrite (rank_percentile_cache_free data c).
  rewrite (rank_percentile_cache_free data ∅).
  destruct (calculate_rank_percentile_4y data name ∅).1 as [e|[rp|]]; done.
Qed.

Lemma fltb_trans (x y z : float) :
  fltb x y = true → fltb y z = true → fltb x z = true.
Proof.
  destruct x as [a| | |], y as [b| | |], z as [d| | |]; simpl; try done.
  rewrite !Qltb_lt. apply Qlt_trans.
Qed.


Lemma count_lt_0 (rs : list float) (x : float) :
  (∀ w, w ∈ rs → fltb w x = false) → count_lt rs x = 0%nat.
Proof.
  intros H. induction rs as [|r rs IH]; [done|].
  rewrite count_lt_cons, H by (apply elem_of_cons; by left).
  apply IH. intros w Hw. apply H, elem_of_cons. by right.
Qed.

Lemma count_lt_mono (rs : list float) (x y : float) :
  (∀ w, fltb w x = true → fltb w y = true) →
  (count_lt rs x ≤ count_lt rs y)%nat.
Proof.
  intros H. induction rs as [|r rs IH]; [done|].
  rewrite !count_lt_cons. destruct (fltb r x) eqn:Hr.
  - rewrite (H r Hr). lia.
  - destruct (fltb r y); lia.
Qed.

Lemma percentile_0 (n : nat) : n ≠ 0%nat → percentile 0 n = Fin 0.
Proof.
  intros Hn. unfold percentile. rewrite fdiv_of_nat by done.
  rewrite (of_Q_eq _ 0) by (unfold Qdiv; apply Qmult_0_l).
  by vm_compute.
Qed.

(** X13: an index that has two observations in the window and no
    comparable peer with a strictly smaller cumulative return has rank
    percentile 0; so has an index that is the only one of its table.
    The returns are those the service computes, on doubles, from the
    columns it reads. *)
Theorem rank_percentile_bottom data (c : gmap string Series) name vs :
  wf_table data → (name, vs) ∈ index_columns data →
  let values := window_values data (ranked_column data name vs) in
  (2 ≤ length values)%nat →
  (∀ w, w ∈ peer_cumulative_returns data name →
        fltb w (cumulative_return values) = false) →
  calculate_rank_percentile_4y data name c = (inr (Some (Fin 0)), c).
Proof.
  intros Hwf Hin values Hlen Hbottom.
  rewrite (rank_percentile_spec data c name vs Hwf Hin). fold values.
  rewrite (proj2 (Nat.ltb_ge _ _) Hlen), (count_lt_0 _ _ Hbottom).
  rewrite percentile_0 by lia. reflexivity.
Qed.

Lemma rank_percentile_bottom_witness :
  calculate_rank_percentile_4y example_table "B" ∅ = (inr (Some (Fin 0)), ∅).
Proof.
  apply (rank_percentile_bottom example_table ∅ "B"
           [Fin 10; Fin 10; Fin 20; Fin 10; Fin 5] wf_example_table
           ltac:(apply elem_of_cons; right; apply elem_of_cons; by left)).
  - vm_compute. lia.
  - intros w Hw. vm_compute in Hw.
    apply elem_of_cons in Hw as [->|Hw]; [by vm_compute|].
    by apply elem_of_nil in Hw.
Defined.

(** X14: of two indices with two observations each in the window, the
    one with the strictly greater cumulative return never has the smaller
    rank percentile.  The returns are those the service computes, on
    doubles, from the columns it reads. *)
Theorem rank_percentile_respects_returns data (c : gmap string Series)
    name_a vs_a name_b vs_b :
  wf_table data →
  (name_a, vs_a) ∈ index_columns data →
  (name_b, vs_b) ∈ index_columns data →
  let values_a := window_values data (ranked_column data name_a vs_a) in
  let values_b := window_values data (ranked_column data name_b vs_b) in
  (2 ≤ length values_a)%nat →
  (2 ≤ length values_b)%nat →
  fltb (cumulative_return values_b) (cumulative_return values_a) = true →
  ∃ q_a q_b,
    calculate_rank_percentile_4y data name_a c = (inr (Some (Fin q_a)), c)
    ∧ calculate_rank_percentile_4y data name_b c = (inr (Some (Fin q_b)), c)
    ∧ (q_b <= q_a)%Q.
Proof.
  intros Hwf Ha Hb values_a values_b Hla Hlb Hlt.
  set (ra := cumulative_return values_a) in *.
  set (rb := cumulative_return values_b) in *.
  assert (Hnames : NoDup (index_columns data).*1).
  { destruct Hwf as [Hnd _]. by apply NoDup_cons in Hnd as [_ Hnd]. }
  assert (Hra : comparable_return_of data name_a vs_a = Some ra).
  { unfold comparable_return_of, comparable_return. lazy zeta.
    fold values_a. by rewrite (proj2 (Nat.leb_le _ _) Hla). }
  assert (Hrb : comparable_return_of data name_b vs_b = Some rb).
  { unfold comparable_return_of, comparable_return. lazy zeta.
    fold values_b. by rewrite (proj2 (Nat.leb_le _ _) Hlb). }
  destruct (all_returns_peers data name_a vs_a _ ra Hnames Ha Hra)
    as [Hca Hna].
  destruct (all_returns_peers data name_b vs_b _ rb Hnames Hb Hrb)
    as [Hcb Hnb].
  fold (peer_cumulative_returns data name_a) in Hca, Hna.
  fold (peer_cumulative_returns data name_b) in Hcb, Hnb.
  rewrite (rank_percentile_spec data c name_a vs_a Hwf Ha).
  rewrite (rank_percentile_spec data c name_b vs_b Hwf Hb).
  fold values_a values_b.
  rewrite (proj2 (Nat.ltb_ge _ _) Hla), (proj2 (Nat.ltb_ge _ _) Hlb).
  fold ra rb. rewrite <- Hca, <- Hcb, <- Hna, <- Hnb.
  set (all := omap (λ col : string * list float,
                      comparable_return_of data col.1 col.2)
                (index_columns data)) in *.
  assert (Hn : length all ≠ 0%nat) by (rewrite Hna; lia).
  pose proof (count_lt_le all ra) as Hka.
  assert (Hk : (count_lt all rb ≤ count_lt all ra)%nat).
  { apply count_lt_mono. intros w Hw. by apply (fltb_trans w rb ra). }
  pose proof (percentile_mono (count_lt all rb) (length all)
                (count_lt all ra) (length all) Hn Hn
                ltac:(by apply Nat.mul_le_mono_r) Hka) as Hle.
  destruct (percentile_decimal (count_lt all ra) (length all) Hka Hn)
    as (za & Hza & Hda & _).
  destruct (percentile_decimal (count_lt all rb) (length all)
              ltac:(lia) Hn) as (zb & Hzb & Hdb & _).
  destruct (two_decimals za Hza) as (q_a & Hqa & _).
  destruct (two_decimals zb Hzb) as (q_b & Hqb & _).
  rewrite Hda, Hqa in Hle |- *. rewrite Hdb, Hqb in Hle |- *.
  by exists q_a, q_b.
Qed.

Lemma rank_percentile_respects_returns_witness :
  ∃ q_a q_b,
    calculate_rank_percentile_4y example_table "A" ∅
    = (inr (Some (Fin q_a)), ∅)
    ∧ calculate_rank_percentile_4y example_table "B" ∅
      = (inr (Some (Fin q_b)), ∅)
    ∧ (q_b <= q_a)%Q.
Proof.
  apply (rank_percentile_respects_returns example_table ∅
           "A" [Fin 3; Fin 3; Fin 4; NaN; Fin 6]
           "B" [Fin 10; Fin 10; Fin 20; Fin 10; Fin 5] wf_example_table
           ltac:(apply elem_of_cons; by left)
           ltac:(apply elem_of_cons; right; apply elem_of_cons; by left)).
  - vm_compute. lia.
  - vm_compute. lia.
  - by vm_compute.
Defined.

(** ** Monthly rank: a greater return ranks before a smaller one *)






(** ** Cache keys *)

(** X16: for one operation, two index names have the same cache key
    exactly when they are the same name: no index is served the series of
    another. *)
Theorem cache_key_of_one_index (name1 name2 operation : string) :
  _get_cache_key name1 operation [] = _get_cache_key name2 operation []
  ↔ name1 = name2.
Proof.
  split; [|by intros ->]. unfold _get_cache_key. apply append_inj_l.
Qed.

(** ** The endpoint *)

(** X17: the errors of the endpoint.  An index name the loader does not
    list is answered with status 404; a listed name that is no column of
    the table with status 500 and the message of the service; a column
    with a non-empty period that is not recognised with status 500 and
    the message of the invalid period.  In all three cases the cache is
    left as it was. *)
Theorem get_heatmap_errors data get_index_columns repr
    (c : gmap string Series) name forward_period :
  (name ∉ get_index_columns →
     get_heatmap data get_index_columns repr name forward_period c
     = (inl (mkHTTPException 404
               ("Index '" +:+ name
                +:+ "' not found. Use /indices to see available indices.")),
        c))
  ∧ (name ∈ get_index_columns → name ∉ columns data →
     get_heatmap data get_index_columns repr name forward_period c
     = (inl (mkHTTPException 500
               ("Error generating heatmap: Index '" +:+ name
                +:+ "' not found in data")), c))
  ∧ (∀ period,
       name ∈ get_index_columns → name ∈ columns data →
       forward_period = Some period → period ≠ ""%string →
       period_map !! period = None →
       get_heatmap data get_index_columns repr name forward_period c
       = (inl (mkHTTPException 500
                 ("Error generating heatmap: Invalid forward period: "
                  +:+ period)), c)).
Proof.
  split; [|split].
  - intros Hname. unfold get_heatmap.
    by rewrite bool_decide_eq_false_2.
  - intros Hlisted Hname%in_columns_false. unfold get_heatmap.
    rewrite bool_decide_eq_true_2 by done. cbn [negb]. lazy zeta.
    unfold mbind, M_bind.
    assert (Hfirst :
      match forward_period with
      | Some period =>
          if bool_decide (period ≠ ""%string) then
            calculate_forward_returns data name period
          else generate_heatmap_matrix data name
      | None => generate_heatmap_matrix data name
      end c = (inl (ValueError (index_not_found name)), c)).
    { unfold calculate_forward_returns, generate_heatmap_matrix.
      rewrite Hname. destruct forward_period as [period|]; [|done].
      by case_bool_decide. }
    by rewrite Hfirst.
  - intros period Hlisted Hname%in_columns_true -> Hperiod Hnone.
    unfold get_heatmap.
    rewrite bool_decide_eq_true_2 by done. cbn [negb]. lazy zeta.
    rewrite (bool_decide_eq_true_2 (period ≠ ""%string)) by done.
    unfold mbind, M_bind, calculate_forward_returns.
    by rewrite Hname, Hnone.
Qed.

Lemma get_heatmap_errors_witness :
  get_heatmap example_table ["A"; "B"]%string id "A" (Some "5Y"%string) ∅
  = (inl (mkHTTPException 500
            "Error generating heatmap: Invalid forward period: 5Y"), ∅).
Proof.
  apply (proj2 (proj2 (get_heatmap_errors example_table ["A"; "B"]%string id
                         ∅ "A" (Some "5Y"%string))) "5Y"%string);
    try done; apply (bool_decide_unpack _); by vm_compute.
Defined.

Lemma memoised_step {A} data (m : M A) (c : gmap string Series) (a : A) :
  memoised data m → cache_ok data c → (m ∅).1 = inr a →
  ∃ c', m c = (inr a, c') ∧ cache_ok data c' ∧ c ⊆ c'.
Proof.
  intros Hm Hc Ha. destruct (Hm c Hc) as (Hr & Hc' & Hsub).
  rewrite Ha in Hr. destruct (m c) as [r c'] eqn:Hmc. simpl in *. subst r.
  by exists c'.
Qed.

(** On a column of a loaded table every operation returns a value. *)
Lemma service_succeeds data name vs :
  wf_table data → (name, vs) ∈ index_columns data →
  (∃ m, (generate_heatmap_matrix data name ∅).1 = inr m)
  ∧ (∃ m, (generate_monthly_price_matrix data name ∅).1 = inr m)
  ∧ (∃ r, (calculate_avg_monthly_profits_3y data name ∅).1 = inr r)
  ∧ (∃ r, (calculate_rank_percentile_4y data name ∅).1 = inr r)
  ∧ (∃ r, (calculate_inverse_rank_percentile data name ∅).1 = inr r)
  ∧ (∃ m, (calculate_monthly_rank_position data name ∅).1 = inr m)
  ∧ (∀ p, is_Some (period_map !! p) →
       ∃ m, (calculate_forward_returns data name p ∅).1 = inr m).
Proof.
  intros Hwf Hin. pose proof (cache_ok_empty data) as Hc.
  split.
  { destruct (heatmap_matrix_run data ∅ name vs Hwf Hc Hin) as [c' ->].
    by eexists. }
  split.
  { destruct (price_matrix_run data ∅ name vs Hwf Hc Hin) as [c' ->].
    by eexists. }
  split.
  { destruct (calculate_monthly_average_index data ∅ name vs Hwf Hc Hin)
      as (c' & Hrun & _).
    unfold calculate_avg_monthly_profits_3y.
    rewrite (in_columns_true _ _ (index_columns_in_columns _ _ _ Hin)).
    cbn [negb]. unfold mbind, M_bind. rewrite Hrun. lazy zeta.
    destruct (last _) as [[k v]|]; [|by eexists].
    destruct (length _ =? 0)%nat; by eexists. }
  split.
  { rewrite (rank_percentile_spec data ∅ name vs Hwf Hin). by eexists. }
  split.
  { unfold calculate_inverse_rank_percentile, mbind, M_bind.
    rewrite (rank_percentile_spec data ∅ name vs Hwf Hin).
    destruct (_ <? _)%nat; by eexists. }
  split.
  { destruct (rank_position_run data ∅ name vs Hwf Hc Hin) as [c' ->].
    by eexists. }
  intros p [h Hh].
  destruct (forward_returns_run data ∅ name vs p h Hwf Hc Hin Hh) as [c' ->].
  by eexists.
Qed.

(** X18: for a listed column of a loaded table, with no period, an empty
    one or a recognised one, the endpoint answers with a response; each
    field of the response is what the operation behind it returns on a
    new service, the cache stays consistent and keeps its entries, and
    without a period the [heatmap] field is the [monthly_profits]
    field. *)
Theorem get_heatmap_response data get_index_columns repr
    (c : gmap string Series) name vs forward_period :
  wf_table data → cache_ok data c →
  name ∈ get_index_columns → (name, vs) ∈ index_columns data →
  (∀ period, forward_period = Some period → period ≠ ""%string →
             is_Some (period_map !! period)) →
  ∃ response c',
    get_heatmap data get_index_columns repr name forward_period c
    = (inr response, c')
    ∧ cache_ok data c' ∧ c ⊆ c'
    ∧ index response = name
    ∧ (match forward_period with
       | Some period =>
           if bool_decide (period ≠ ""%string) then
             calculate_forward_returns data name period
           else generate_heatmap_matrix data name
       | None => generate_heatmap_matrix data name
       end ∅).1 = inr (heatmap response)
    ∧ (generate_monthly_price_matrix data name ∅).1
      = inr (monthly_price response)
    ∧ (generate_heatmap_matrix data name ∅).1
      = inr (monthly_profits response)
    ∧ (calculate_avg_monthly_profits_3y data name ∅).1
      = inr (avg_monthly_profits_3y response)
    ∧ (calculate_rank_percentile_4y data name ∅).1
      = inr (rank_percentile_4y response)
    ∧ (calculate_inverse_rank_percentile data name ∅).1
      = inr (inverse_rank_percentile response)
    ∧ (calculate_monthly_rank_position data name ∅).1
      = inr (monthly_rank_percentile response)
    ∧ (forward_period = None ∨ forward_period = Some ""%string →
       heatmap response = monthly_profits response).
Proof.
  intros Hwf Hc Hlisted Hin Hperiod.
  destruct (service_succeeds data name vs Hwf Hin)
    as ([m_heat Hheat] & [m_price Hprice] & [r_avg Havg] & [r_rank Hrank]
        & [r_inv Hinv] & [m_pos Hpos] & Hforward).
  set (first_op :=
         match forward_period with
         | Some period =>
             if bool_decide (period ≠ ""%string) then
               calculate_forward_returns data name period
             else generate_heatmap_matrix data name
         | None => generate_heatmap_matrix data name
         end).
  assert (Hfirst_mem : memoised data first_op).
  { subst first_op. destruct forward_period as [period|];
      [case_bool_decide|];
      first [apply (service_memoised data name period)
            |apply (service_memoised data name "")]. }
  assert (Hfirst : ∃ m, (first_op ∅).1 = inr m).
  { subst first_op. destruct forward_period as [period|]; [|by eexists].
    case_bool_decide; [|by eexists]. by apply Hforward, Hperiod. }
  destruct Hfirst as [m_first Hfirst].
  destruct (service_memoised data name "")
    as (_ & Hm_heat & Hm_price & Hm_avg & Hm_rank & Hm_inv & Hm_pos & _).
  destruct (memoised_step data _ c _ Hfirst_mem Hc Hfirst)
    as (c1 & Hrun1 & Hc1 & Hsub1).
  destruct (memoised_step data _ c1 _ Hm_price Hc1 Hprice)
    as (c2 & Hrun2 & Hc2 & Hsub2).
  destruct (memoised_step data _ c2 _ Hm_heat Hc2 Hheat)
    as (c3 & Hrun3 & Hc3 & Hsub3).
  destruct (memoised_step data _ c3 _ Hm_avg Hc3 Havg)
    as (c4 & Hrun4 & Hc4 & Hsub4).
  destruct (memoised_step data _ c4 _ Hm_rank Hc4 Hrank)
    as (c5 & Hrun5 & Hc5 & Hsub5).
  destruct (memoised_step data _ c5 _ Hm_inv Hc5 Hinv)
    as (c6 & Hrun6 & Hc6 & Hsub6).
  destruct (memoised_step data _ c6 _ Hm_pos Hc6 Hpos)
    as (c7 & Hrun7 & Hc7 & Hsub7).
  eexists _, c7. split.
  { unfold get_heatmap. rewrite bool_decide_eq_true_2 by done.
    cbn [negb]. lazy zeta. fold first_op. unfold mbind, M_bind.
    rewrite Hrun1, Hrun2, Hrun3, Hrun4, Hrun5, Hrun6, Hrun7.
    reflexivity. }
  split; [exact Hc7|]. split.
  { repeat (etrans; [eassumption|]). done. }
  cbn [index heatmap monthly_price monthly_profits avg_monthly_profits_3y
         rank_percentile_4y inverse_rank_percentile monthly_rank_percentile].
  repeat (split; [done|]).
  intros Hnone. subst first_op.
  assert (Hsame : inr m_first = (inr m_heat : exn + Matrix float)).
  { rewrite <- Hfirst, <- Hheat. by destruct Hnone as [->| ->]. }
  by injection Hsame.
Qed.

Lemma get_heatmap_response_witness :
  ∃ response c',
    get_heatmap example_table ["A"; "B"]%string id "A" None ∅
    = (inr response, c')
    ∧ index response = "A"%string
    ∧ heatmap response = monthly_profits response.
Proof.
  destruct (get_heatmap_response example_table ["A"; "B"]%string id ∅
              "A" [Fin 3; Fin 3; Fin 4; NaN; Fin 6] None
              wf_example_table (cache_ok_empty _)
              ltac:(apply elem_of_cons; by left)
              ltac:(apply elem_of_cons; by left)
              ltac:(discriminate))
    as (response & c' & Hrun & _ & _ & Hindex & _ & _ & _ & _ & _ & _ & _
        & Hsame).
  exists response, c'. split; [exact Hrun|]. split; [exact Hindex|].
  apply Hsame. by left.
Defined.

(** ** Monthly rank: edges *)

Lemma length_peer_returns data name vs idx :
  NoDup (index_columns data).*1 → (name, vs) ∈ index_columns data →
  (length (peer_returns data name idx) + 1 ≤ length (index_columns data))%nat.
Proof.
  intros Hnd Hin. unfold peer_returns.
  induction (index_columns data) as [|[n' vs'] cols IH];
    [by apply elem_of_nil in Hin|].
  rewrite fmap_cons in Hnd. apply NoDup_cons in Hnd as [Hn' Hnd].
  rewrite omap_cons_match. cbn [fst snd length].
  apply elem_of_cons in Hin as [[= <- <-]|Hin].
  - rewrite bool_decide_eq_true_2 by done.
    pose proof (length_omap_le
                  (λ col : string * list float,
                     if bool_decide (col.1 = name) then None
                     else match loc (mom_returns_of data col.1 col.2) idx with
                          | Some w => if isna w then None else Some w
                          | None => None
                          end) cols). lia.
  - specialize (IH Hnd Hin). case_bool_decide; [lia|].
    destruct (loc _ _) as [w|]; [|lia]. destruct (isna w); simpl; lia.
Qed.

(** X19: in the rank matrix of a column the cell of the first bucket is
    [None]; a rank, where there is one, lies between 1 and the number of
    indices of the table; and in a table with a single index every cell
    is [None]. *)
Theorem monthly_rank_edges data c name vs :
  wf_table data → cache_ok data c → (name, vs) ∈ index_columns data →
  ∃ matrix c',
    calculate_monthly_rank_position data name c = (inr matrix, c')
    ∧ (∀ idx value, monthly_series data vs !! 0%nat = Some (idx, value) →
         cell matrix idx = Some None)
    ∧ (∀ idx r, cell matrix idx = Some (Some r) →
         1 ≤ r ≤ Z.of_nat (length (index_columns data)))
    ∧ (length (index_columns data) = 1%nat →
       ∀ idx r, cell matrix idx ≠ Some (Some r)).
Proof.
  intros Hwf Hc Hin.
  destruct (rank_position_run data c name vs Hwf Hc Hin) as [c' Hrun].
  destruct (rank_position_cells data c name vs Hwf Hc Hin)
    as (matrix & c'' & Hrun' & Hcells).
  assert (Hnames : NoDup (index_columns data).*1).
  { destruct Hwf as [Hnd _]. by apply NoDup_cons in Hnd as [_ Hnd]. }
  exists matrix, c''. split; [exact Hrun'|].
  assert (Hbucket : ∀ idx r, cell matrix idx = Some (Some r) →
    ∃ value, (idx, value) ∈ mom_returns_of data name vs).
  { intros idx r Hr. rewrite Hrun in Hrun'. injection Hrun' as <- _.
    assert (Hsome : is_Some (cell
              (foldl (λ m a, set_cell m (str (a.1).1) (str (a.1).2)
                   (if isna a.2 then None
                    else if (0 <? length (peer_returns data name a.1))%nat
                         then Some (Z.of_nat
                                      (count_gt (peer_returns data name a.1)
                                         a.2 + 1))
                         else None)) ∅ (mom_returns_of data name vs)) idx))
      by (by rewrite Hr).
    apply (fill_cell_is_Some fst) in Hsome; [|apply mom_returns_of_NoDup].
    apply list_elem_of_fmap in Hsome as ([k v] & -> & Hkv). by exists v. }
  assert (Hrange : ∀ idx r, cell matrix idx = Some (Some r) →
    1 ≤ r ≤ Z.of_nat (length (index_columns data))
    ∧ (1 ≤ length (peer_returns data name idx))%nat).
  { intros idx r Hr. destruct (Hbucket idx r Hr) as [value Hidx].
    rewrite (Hcells idx value Hidx) in Hr.
    destruct (isna value); [done|].
    destruct (0 <? _)%nat eqn:Hpos; [|done]. injection Hr as <-.
    apply Nat.ltb_lt in Hpos.
    pose proof (count_gt_le (peer_returns data name idx) value).
    pose proof (length_peer_returns data name vs idx Hnames Hin). lia. }
  split; [|split].
  - intros idx value H0.
    destruct (lookup_same_keys _ (monthly_avg_of data name vs) 0 idx value
                (eq_sym (monthly_avg_of_keys data name vs Hwf Hin)) H0)
      as [value' H0'].
    rewrite (Hcells idx NaN); [done|].
    apply (list_elem_of_lookup_2 _ 0%nat).
    unfold mom_returns_of, mom_series. fold (monthly_avg_of data name vs).
    rewrite calculate_mom_returns_lookup. by rewrite H0'.
  - intros idx r Hr. apply (Hrange idx r Hr).
  - intros Hone idx r Hr. destruct (Hrange idx r Hr) as [_ Hpeers].
    pose proof (length_peer_returns data name vs idx Hnames Hin). lia.
Qed.

Lemma monthly_rank_edges_witness :
  ∃ matrix c',
    calculate_monthly_rank_position example_table "A" ∅ = (inr matrix, c')
    ∧ cell matrix (2020, 1) = Some None.
Proof.
  destruct (monthly_rank_edges example_table ∅ "A"
              [Fin 3; Fin 3; Fin 4; NaN; Fin 6]
              wf_example_table (cache_ok_empty _)
              ltac:(apply elem_of_cons; by left))
    as (matrix & c' & Hrun & Hfirst & _).
  exists matrix, c'. split; [exact Hrun|].
  apply (Hfirst (2020, 1) (Fin 3)). by vm_compute.
Defined.

(** ** Inverse rank percentile: range *)

(** X20: an inverse rank percentile that is not absent is a number
    between 0 and 100, and it is above 0 when the table has fewer than
    20000 indices. *)
Theorem inverse_rank_percentile_range data (c : gmap string Series) name v :
  wf_table data →
  (calculate_inverse_rank_percentile data name c).1 = inr (Some v) →
  ∃ q, v = Fin q ∧ (0 <= q)%Q ∧ (q <= 100)%Q
       ∧ (Z.of_nat (length (index_columns data)) < 20000 → (0 < q)%Q).
Proof.
  intros Hwf Hrun.
  unfold calculate_inverse_rank_percentile, mbind, M_bind in Hrun.
  destruct (calculate_rank_percentile_4y data name c) as [[e|[rp|]] c1] eqn:Hrp;
    try done.
  unfold mret, M_ret in Hrun. cbn [fst] in Hrun. injection Hrun as <-.
  assert (Hrp1 : (calculate_rank_percentile_4y data name c).1 = inr (Some rp))
    by (by rewrite Hrp).
  destruct (rank_percentile_bounds data c name rp Hwf Hrp1)
    as (k & n & z & p & _ & _ & Hz & Hdec & _ & _ & _ & Hsmall).
  destruct (two_decimals (10000 - z)) as (q & Hq & Hq0 & Hq100 & _ & Hpos);
    [lia|].
  exists q. split.
  { change (round (fsub (Fin 100) rp) 2 = Fin q).
    by rewrite Hdec, round_complement. }
  split; [exact Hq0|]. split; [exact Hq100|].
  intros Hn. apply Hpos. destruct (Hsmall Hn) as [Hz' _]. lia.
Qed.

Lemma inverse_rank_percentile_range_witness :
  ∃ q, Fin 50 = Fin q ∧ (0 <= q)%Q ∧ (q <= 100)%Q
       ∧ (Z.of_nat (length (index_columns example_table)) < 20000
          → (0 < q)%Q).
Proof.
  apply (inverse_rank_percentile_range example_table ∅ "A" (Fin 50)
           wf_example_table).
  by vm_compute.
Defined.
